(** * scipy-dataclassfitparams: dependency graph and fit specification

    A shallow embedding of [_depgraph.py], of the field descriptors of
    [_fields.py] and of [_fit_spec.py], with the properties of the
    dependency graph, of specification generation and of the conversions
    between parameter arrays and instances.

    Conventions of the embedding:
    - Python exceptions are values of [exn]; a call returns a [result].
      A method that mutates [self] returns the outcome together with the
      object after the call, so that the state left behind by a raise is
      part of the model.
    - dicts are [gmap]s (association lists where the code relies on the
      order of the items), tuples and Python lists are [list]s, the
      sparse matrix of the graph is a [gmap] from index pairs to the
      stored entries (an absent pair reads as 0).
    - floats are IEEE binary64 values ([PrimFloat.float]).
    - a dataclass is the list of its [dataclasses.Field]s in declaration
      order; the names of the fields of a dataclass are pairwise
      distinct, which the statements about [generate] assume as
      [NoDup (map Field.name t)].
    - library code the package calls is modelled from its documented
      behaviour: [scipy.sparse.csgraph.floyd_warshall], the [__init__]
      that [dataclasses] generates, numpy item assignment. *)

From Stdlib Require Import ZArith Lia List Floats.
From stdpp Require Import base relations gmap strings list fin_maps.

Local Open Scope nat_scope.

(** ** Exceptions and results *)

(** The messages of the [ValueError]s raised by the package. *)
Inductive message :=
| SelfDependency (which : string)
    (* "The field {which} cannot depend on itself." *)
| DirectCircular (which source : string)
    (* "... creates a direct circular dependence ..." *)
| ClosedLoops
    (* "The dependency graph contained closed loops." *)
| CircularDependencies
    (* "There are circular dependencies in the field dependencies ..." *)
| InvalidShape (given expected : nat)
    (* "The provided array has an invalid shape ..." *)
| UnexpectedNumberOfParameters (given expected : nat)
    (* "Unexpected number of parameters ..." *)
| MaxSmallerThanMin.
    (* "The provided max value was smaller than the provided min value." *)

Inductive exn :=
| ValueError (m : message)
| KeyError (key : string)
| IndexError (index size : nat)
| AttributeError (attr : string)
| TypeError
| AssertionError.

(** Outcome of a call: a value, a raised exception, or no return at all
    (a loop that repeats with an unchanged state). *)
Inductive result (A : Type) :=
| Ok (a : A)
| Raise (e : exn)
| Diverge.
Arguments Ok {A} a.
Arguments Raise {A} e.
Arguments Diverge {A}.

#[global] Instance result_bind : MBind result := fun A B k r =>
  match r with
  | Ok a => k a
  | Raise e => Raise e
  | Diverge => Diverge
  end.

#[global] Instance result_fmap : FMap result := fun A B f r =>
  match r with
  | Ok a => Ok (f a)
  | Raise e => Raise e
  | Diverge => Diverge
  end.

(** The error classes of the design document, read off the exceptions the
    code raises (the code raises [ValueError] for all of them and tells
    them apart by message). *)
Definition is_InvalidDependency (e : exn) : bool :=
  match e with
  | ValueError (SelfDependency _) => true
  | _ => false
  end.

Definition is_CircularDependency (e : exn) : bool :=
  match e with
  | ValueError (DirectCircular _ _) => true
  | ValueError ClosedLoops => true
  | ValueError CircularDependencies => true
  | _ => false
  end.

(** Python's [seq[i]] on a tuple or list. *)
Definition getitem {A} (l : list A) (i : nat) : result A :=
  match l !! i with
  | Some x => Ok x
  | None => Raise (IndexError i (length l))
  end.

(** Python's [d[k]] on a dict with string keys. *)
Definition dict_get {A} (d : gmap string A) (k : string) : result A :=
  match d !! k with
  | Some x => Ok x
  | None => Raise (KeyError k)
  end.

Fixpoint mapM {A B} (f : A → result B) (l : list A) : result (list B) :=
  match l with
  | [] => Ok []
  | x :: l' => y ← f x; ys ← mapM f l'; Ok (y :: ys)
  end.

(** ** [_depgraph.py] *)

Module DepGraph.

(** The [lil_matrix] of the graph: the stored entries by (row, column). *)
Abbreviation matrix := (gmap (nat * nat) Z).

(** [g[i, j]]: an entry that is not stored reads as 0. *)
Definition entry (g : matrix) (i j : nat) : Z :=
  default 0%Z (g !! (i, j)).

Record t := mk {
  N : nat;
  _graph : matrix;
  fields : list string;
  _key_map : gmap string nat;
  _num_deps : nat
}.

(** [{s: i for i, s in enumerate(fields)}], built left to right. *)
Fixpoint key_map_from (i : nat) (fs : list string) (km : gmap string nat)
  : gmap string nat :=
  match fs with
  | [] => km
  | s :: fs' => key_map_from (S i) fs' (<[s := i]> km)
  end.

(** [DepGraph.__init__] *)
Definition init (fs : list string) : t :=
  {| N := length fs;
     _graph := ∅;
     fields := fs;
     _key_map := key_map_from 0 fs ∅;
     _num_deps := 0 |}.

(** [DepGraph.add_dependency]; the second component is [self] after the
    call. *)
Definition add_dependency (self : t) (which source : string)
  : result bool * t :=
  if decide (which = source) then
    (Raise (ValueError (SelfDependency which)), self)
  else
    match _key_map self !! which with
    | None => (Raise (KeyError which), self)
    | Some wi =>
      match _key_map self !! source with
      | None => (Raise (KeyError source), self)
      | Some si =>
        let g := _graph self in
        let v := entry g wi si in
        let change := negb (v =? -1)%Z in
        if change then
          if negb (entry g si wi =? 0)%Z then
            (Raise (ValueError (DirectCircular which source)), self)
          else
            (Ok change,
             {| N := N self;
                _graph := <[(wi, si) := (-1)%Z]> g;
                fields := fields self;
                _key_map := _key_map self;
                _num_deps := 1 + _num_deps self |})
        else (Ok change, self)
      end
    end.

(** [DepGraph.dependency_count] *)
Definition dependency_count (self : t) : nat := _num_deps self.

(** *** [scipy.sparse.csgraph.floyd_warshall]

    Library code: the dense distance matrix has the stored entries of
    the sparse matrix as edge weights and +inf everywhere else (here: a
    pair that is absent from the map), the diagonal is set to 0, the
    classical triple loop relaxes the matrix in place, and
    [NegativeCycleError] is raised when a diagonal entry ends up
    negative.  Distances are integers here: the weights of the graph
    are all -1. *)

Definition zero_diagonal (n : nat) (D : matrix) : matrix :=
  fold_left (fun D i => <[(i, i) := 0%Z]> D) (seq 0 n) D.

(** The body of the innermost loop:
    [d_ijk = d_ik + D[k, j]; if d_ijk < D[i, j]: D[i, j] = d_ijk]. *)
Definition relax (k i : nat) (d_ik : Z) (D : matrix) (j : nat) : matrix :=
  match D !! (k, j) with
  | None => D
  | Some d_kj =>
    let d_ijk := (d_ik + d_kj)%Z in
    match D !! (i, j) with
    | None => <[(i, j) := d_ijk]> D
    | Some d_ij => if (d_ijk <? d_ij)%Z then <[(i, j) := d_ijk]> D else D
    end
  end.

(** [for i: d_ik = D[i, k]; if d_ik == INFINITY: continue; for j: ...] *)
Definition relax_row (n k : nat) (D : matrix) (i : nat) : matrix :=
  match D !! (i, k) with
  | None => D
  | Some d_ik => fold_left (relax k i d_ik) (seq 0 n) D
  end.

Definition relax_via (n : nat) (D : matrix) (k : nat) : matrix :=
  fold_left (relax_row n k) (seq 0 n) D.

Definition shortest_paths (n : nat) (g : matrix) : matrix :=
  fold_left (relax_via n) (seq 0 n) (zero_diagonal n g).

Definition negative_diagonal (n : nat) (D : matrix) : bool :=
  existsb (fun i => match D !! (i, i) with
                    | Some d => (d <? 0)%Z
                    | None => false
                    end) (seq 0 n).

(** [None] stands for [NegativeCycleError]. *)
Definition floyd_warshall (n : nat) (g : matrix) : option matrix :=
  let D := shortest_paths n g in
  if negative_diagonal n D then None else Some D.

(** [DepGraph.has_closed_cycles] *)
Definition has_closed_cycles (self : t) : bool :=
  match floyd_warshall (N self) (_graph self) with
  | Some _ => false
  | None => true
  end.

(** [g.sum(axis=1)]: the column vector of the row sums. *)
Definition row_sum (n : nat) (g : matrix) (i : nat) : Z :=
  fold_left (fun acc j => (acc + entry g i j)%Z) (seq 0 n) 0%Z.

Definition sum_axis1 (n : nat) (g : matrix) : list Z :=
  map (row_sum n g) (seq 0 n).

(** [nnum_deps[i, 0]] *)
Definition at0 (nnum_deps : list Z) (i : nat) : Z :=
  default 0%Z (nnum_deps !! i).

(** The inner [for i in idx_in_tree] loop of [get_init_order]. *)
Definition decrement (g : matrix) (idx : nat) (idx_in_tree : list nat)
    (nnum_deps : list Z) : list Z :=
  fold_left
    (fun nn i =>
       if (entry g i idx =? 0)%Z then nn
       else <[i := (at0 nn i + 1)%Z]> nn)
    idx_in_tree nnum_deps.

(** Python's [set.remove] on the list that stands for the set. *)
Definition set_remove (idx : nat) (s : list nat) : list nat :=
  filter (fun i => i ≠ idx) s.

(** The [while len(idx_in_tree) > 0] loop of [get_init_order].

    [idx_in_tree] is a Python set of small non-negative integers built
    by [set(range(N))]; CPython iterates such a set in increasing order,
    also after removals, and the list that models it is kept in that
    order.  A pass of the [for] loop that finds no index with
    [nnum_deps[idx, 0] == 0] ends without [break] and leaves every
    variable unchanged, so the [while] loop repeats it forever: the
    model answers [Diverge].  Every other pass removes one index; [fuel]
    bounds the number of such passes and is given as [N] by
    [get_init_order], which is never exceeded. *)
Fixpoint init_order_loop (fuel : nat) (g : matrix)
    (idx_in_tree idx_resolved : list nat) (nnum_deps : list Z)
  : result (list nat) :=
  match idx_in_tree with
  | [] => Ok idx_resolved
  | _ =>
    match List.find (fun idx => (at0 nnum_deps idx =? 0)%Z) idx_in_tree with
    | None => Diverge
    | Some idx =>
      match fuel with
      | 0 => Diverge
      | S fuel' =>
        init_order_loop fuel' g
          (set_remove idx idx_in_tree)
          (idx_resolved ++ [idx])
          (decrement g idx idx_in_tree nnum_deps)
      end
    end
  end.

(** [DepGraph.get_init_order] *)
Definition get_init_order (self : t) : result (list string) :=
  if has_closed_cycles self then Raise (ValueError ClosedLoops)
  else
    let g := _graph self in
    idx_resolved ←
      init_order_loop (N self) g (seq 0 (N self)) [] (sum_axis1 (N self) g);
    mapM (getitem (fields self)) idx_resolved.

End DepGraph.

(** Folding [add_dependency] over a list of (which, source) pairs, stopping
    at the first exception. *)
Fixpoint add_dependencies (g : DepGraph.t) (deps : list (string * string))
  : result unit * DepGraph.t :=
  match deps with
  | [] => (Ok tt, g)
  | (w, s) :: deps' =>
    match DepGraph.add_dependency g w s with
    | (Ok _, g') => add_dependencies g' deps'
    | (Raise e, g') => (Raise e, g')
    | (Diverge, g') => (Diverge, g')
    end
  end.

(** ** [_fields.py] *)

(** [cmath.isfinite] on a float. *)
Definition isfinite (x : float) : bool :=
  match PrimFloat.classify x with
  | PInf | NInf | NaN => false
  | _ => true
  end.

(** The metadata values: the subclasses of [FittingField]. *)
Inductive FittingField :=
| BoundedField (min max : float)
| ConstField (value : float)
| SameAsField (name : string)
| RegularField.

Module BoundedField.

Definition POS_INF : float := infinity.
Definition NEG_INF : float := neg_infinity.

(** [BoundedField.__init__] *)
Definition init (min max : option float) : result FittingField :=
  let max := default POS_INF max in
  let min := default NEG_INF min in
  if PrimFloat.ltb max min then Raise (ValueError MaxSmallerThanMin)
  else Ok (BoundedField min max).

Definition min_finite (min max : float) : bool := isfinite min.
Definition max_finite (min max : float) : bool := isfinite max.

Definition actually_bounded (min max : float) : bool :=
  min_finite min max || max_finite min max.

Definition get_bounds_default (min max : float) : float :=
  let min_fin := min_finite min max in
  let max_fin := max_finite min max in
  if min_fin && max_fin then (0.5 * (min + max))%float
  else if min_fin then (min + 1)%float
  else if max_fin then (max - 1)%float
  else 0%float.

Definition contains (min max : float) (value : float) : bool :=
  let res := true in
  let res := if min_finite min max then res && PrimFloat.leb min value else res in
  let res := if max_finite min max then res && PrimFloat.leb value max else res in
  res.

(** [field_default] is [None] for [dataclasses.MISSING]. *)
Definition resolve_default (min max : float) (field_default : option float)
  : float :=
  match field_default with
  | Some d => if contains min max d then d else get_bounds_default min max
  | None => get_bounds_default min max
  end.

End BoundedField.

(** A [dataclasses.Field] as far as the package reads it: [default] and
    [default_factory] are [None] for [MISSING] (a factory is represented by
    the value it produces), [metadata] is the entry under the package's
    metadata key, [None] when the field has none. *)
Module Field.

Record t := mk {
  name : string;
  init : bool;
  default : option float;
  default_factory : option float;
  metadata : option FittingField
}.

End Field.

(** [get_special_fitting_field] *)
Definition get_special_fitting_field (f : Field.t) : option FittingField :=
  Field.metadata f.

(** The field functions of the package; the dataclass decorator supplies
    the name, given here as the last argument. *)
Definition bounded (min max : option float) (default : option float)
    (name : string) : result Field.t :=
  m ← BoundedField.init min max;
  Ok (Field.mk name true default None (Some m)).

Definition const (value : float) (name : string) : Field.t :=
  Field.mk name true (Some value) None (Some (ConstField value)).

Definition same_as (target : string) (default : option float)
    (name : string) : Field.t :=
  Field.mk name true default None (Some (SameAsField target)).

Definition regular (default : option float) (name : string) : Field.t :=
  Field.mk name true default None (Some RegularField).

(** A plain annotated attribute [name: float] or [name: float = default]. *)
Definition plain (default : option float) (name : string) : Field.t :=
  Field.mk name true default None None.

(** A dataclass is given by its fields in declaration order; an instance
    by its attributes. *)
Abbreviation dataclass := (list Field.t).
Abbreviation instance := (gmap string float).

(** The generated [__init__] of a dataclass, called with keyword arguments
    only. *)
Definition init_arg (kwargs : gmap string float) (f : Field.t)
  : result (option float) :=
  let dflt := match Field.default f with
              | Some d => Some d
              | None => Field.default_factory f
              end in
  if Field.init f then
    match kwargs !! Field.name f with
    | Some v => Ok (Some v)
    | None => match dflt with
              | Some d => Ok (Some d)
              | None => Raise TypeError
              end
    end
  else Ok dflt.

Fixpoint init_attrs (kwargs : gmap string float) (fs : list Field.t)
    (self : instance) : result instance :=
  match fs with
  | [] => Ok self
  | f :: fs' =>
    v ← init_arg kwargs f;
    init_attrs kwargs fs'
      (match v with Some x => <[Field.name f := x]> self | None => self end)
  end.

Definition construct (clss : dataclass) (kwargs : gmap string float)
  : result instance :=
  let params := map Field.name (filter (fun f => Field.init f = true) clss) in
  if bool_decide (dom kwargs ⊆ (list_to_set params : gset string)) then
    init_attrs kwargs clss ∅
  else Raise TypeError.

(** [getattr(instance, field)] *)
Definition getattr (inst : instance) (field : string) : result float :=
  match inst !! field with
  | Some v => Ok v
  | None => Raise (AttributeError field)
  end.

(** ** [_fit_spec.py] *)

(** [DependentResolver]: [target] is the field that depends, [name] the
    field whose value it takes. *)
Module DependentResolver.

Record t := mk {
  target : string;
  name : string
}.

(** [DependentResolver.get] *)
Definition get (self : t) (others : gmap string float) : result float :=
  dict_get others (name self).

End DependentResolver.

(** The subclasses of [DefaultResolver]. *)
Inductive DefaultResolver :=
| UnsetDefaultResolver
| FixedDefaultResolver (value : float)
| DependentDefaultResolver (r : DependentResolver.t).

(** [DefaultResolver.get], by dynamic dispatch. *)
Definition DefaultResolver_get (self : DefaultResolver)
    (others : gmap string float) : result float :=
  match self with
  | UnsetDefaultResolver => Ok 0%float
  | FixedDefaultResolver value => Ok value
  | DependentDefaultResolver r => DependentResolver.get r others
  end.

(** The bounds handed to the optimiser: a 0-d array when a side has no
    bound at all, a 1-d array otherwise. *)
Inductive bound_array :=
| Scalar (x : float)
| Dense (xs : list float).

Module FitSpecBase.

Record t := mk {
  special_param_count : nat;
  init_order : list string;
  fitting_param_count : nat;
  fitting_params : list string;
  fitting_fields : gmap string (option FittingField);
  default_resolvers : list DefaultResolver;
  lower_bounds : option (list float);
  upper_bounds : option (list float);
  bounds : bound_array * bound_array;
  dep_resolvers : list DependentResolver.t
}.

End FitSpecBase.

(** [FitSpec]: the fields of [FitSpecBase] and the class. *)
Module FitSpec.

Record t := mk {
  base : FitSpecBase.t;
  clss : dataclass
}.

End FitSpec.

(** [result[k] = v] on a numpy array. *)
Definition setitem {A} (l : list A) (k : nat) (v : A) : result (list A) :=
  if k <? length l then Ok (<[k := v]> l)
  else Raise (IndexError k (length l)).

(** [FitSpecBase._process_bounds].  [set_bounds] is the dict of the bounds
    that were set, as the list of its items in insertion order (every key
    is inserted once). *)
Fixpoint fill_bounds (items : list (nat * float)) (arr : list float)
  : result (list float) :=
  match items with
  | [] => Ok arr
  | (k, v) :: items' => arr' ← setitem arr k v; fill_bounds items' arr'
  end.

Definition _process_bounds (set_bounds : list (nat * float))
    (num_params : nat) (default : float) : result (option (list float)) :=
  if length set_bounds =? 0 then Ok None
  else r ← fill_bounds set_bounds (replicate num_params default); Ok (Some r).

(** The local variables of [FitSpecBase.generate] that the loop over the
    fields updates. *)
Record gen_state := mk_gen_state {
  depgraph : DepGraph.t;
  field_descriptors : gmap string (option FittingField);
  set_lower_bounds : list (nat * float);
  set_upper_bounds : list (nat * float);
  default_resolvers : list DefaultResolver;
  special_fields : list string;
  fitting_fields : list string;
  dep_resolver_map : gmap string DependentResolver.t
}.

Definition gen_state_init (all_fields_ordered : dataclass) : gen_state :=
  {| depgraph := DepGraph.init (map Field.name all_fields_ordered);
     field_descriptors := ∅;
     set_lower_bounds := [];
     set_upper_bounds := [];
     default_resolvers := [];
     special_fields := [];
     fitting_fields := [];
     dep_resolver_map := ∅ |}.

(** One pass of [for i, field in enumerate(init_fields)]. *)
Definition gen_step (st : gen_state) (i : nat) (field : Field.t)
  : result gen_state :=
  let field_name := Field.name field in
  let special_fields := special_fields st ++ [field_name] in
  let info := get_special_fitting_field field in
  let field_descriptors := <[field_name := info]> (field_descriptors st) in
  let finish depgraph lower upper fitting dep_map def_res :=
    {| depgraph := depgraph;
       field_descriptors := field_descriptors;
       set_lower_bounds := lower;
       set_upper_bounds := upper;
       default_resolvers := default_resolvers st ++ [def_res];
       special_fields := special_fields;
       fitting_fields := fitting;
       dep_resolver_map := dep_map |} in
  match info with
  | None | Some RegularField =>
    let def_res := match Field.default field with
                   | None => UnsetDefaultResolver
                   | Some field_default => FixedDefaultResolver field_default
                   end in
    Ok (finish (depgraph st) (set_lower_bounds st) (set_upper_bounds st)
          (fitting_fields st ++ [field_name]) (dep_resolver_map st) def_res)
  | Some (BoundedField min max) =>
    let lower := if BoundedField.min_finite min max
                 then set_lower_bounds st ++ [(i, min)]
                 else set_lower_bounds st in
    let upper := if BoundedField.max_finite min max
                 then set_upper_bounds st ++ [(i, max)]
                 else set_upper_bounds st in
    let df_val := BoundedField.resolve_default min max (Field.default field) in
    Ok (finish (depgraph st) lower upper
          (fitting_fields st ++ [field_name]) (dep_resolver_map st)
          (FixedDefaultResolver df_val))
  | Some (ConstField value) =>
    Ok (finish (depgraph st) (set_lower_bounds st) (set_upper_bounds st)
          (fitting_fields st) (dep_resolver_map st)
          (FixedDefaultResolver value))
  | Some (SameAsField dep_name) =>
    match DepGraph.add_dependency (depgraph st) field_name dep_name with
    | (Ok _, depgraph) =>
      let def_res := DependentResolver.mk field_name dep_name in
      Ok (finish depgraph (set_lower_bounds st) (set_upper_bounds st)
            (fitting_fields st)
            (<[field_name := def_res]> (dep_resolver_map st))
            (DependentDefaultResolver def_res))
    | (Raise e, _) => Raise e
    | (Diverge, _) => Diverge
    end
  end.

Fixpoint gen_loop (st : gen_state) (i : nat) (init_fields : list Field.t)
  : result gen_state :=
  match init_fields with
  | [] => Ok st
  | field :: rest => st' ← gen_step st i field; gen_loop st' (S i) rest
  end.

(** The nested generator [get_dep_resolvers]. *)
Definition get_dep_resolvers (dep_resolver_map : gmap string DependentResolver.t)
    (ordered_fields : list string) : list DependentResolver.t :=
  omap (fun f => dep_resolver_map !! f) ordered_fields.

(** [(f for f in all_fields_ordered if f.init)]: the constructor-relevant
    fields of a dataclass. *)
Definition init_fields (t : dataclass) : list Field.t :=
  filter (fun f => Field.init f = true) t.

(** [FitSpecBase.generate] *)
Definition generate (t : dataclass) : result FitSpecBase.t :=
  let all_fields_ordered := t in
  let init_fields := init_fields all_fields_ordered in
  st ← gen_loop (gen_state_init all_fields_ordered) 0 init_fields;
  let depgraph := depgraph st in
  let num_special_params := length (special_fields st) in
  let t_def_res := default_resolvers st in
  if negb (length t_def_res =? num_special_params) then Raise AssertionError
  else
    '(init_order, dep_resolvers_seq) ←
      (if 0 <? DepGraph.dependency_count depgraph then
         if DepGraph.has_closed_cycles depgraph then
           Raise (ValueError CircularDependencies)
         else
           init_order ← DepGraph.get_init_order depgraph;
           let ssf := special_fields st in
           let init_order := filter (fun f => f ∈ ssf) init_order in
           if negb (length init_order =? num_special_params)
           then Raise AssertionError
           else Ok (init_order,
                    get_dep_resolvers (dep_resolver_map st) init_order)
       else Ok (special_fields st, []));
    let num_fitting_params := length (fitting_fields st) in
    lower_bounds ←
      _process_bounds (set_lower_bounds st) num_fitting_params neg_infinity;
    upper_bounds ←
      _process_bounds (set_upper_bounds st) num_fitting_params infinity;
    let lb := match lower_bounds with
              | None => Scalar neg_infinity
              | Some a => Dense a
              end in
    let ub := match upper_bounds with
              | None => Scalar infinity
              | Some a => Dense a
              end in
    Ok {| FitSpecBase.special_param_count := num_special_params;
          FitSpecBase.init_order := init_order;
          FitSpecBase.fitting_param_count := num_fitting_params;
          FitSpecBase.fitting_params := fitting_fields st;
          FitSpecBase.fitting_fields := field_descriptors st;
          FitSpecBase.default_resolvers := t_def_res;
          FitSpecBase.lower_bounds := lower_bounds;
          FitSpecBase.upper_bounds := upper_bounds;
          FitSpecBase.bounds := (lb, ub);
          FitSpecBase.dep_resolvers := dep_resolvers_seq |}.

(** [_StoredFitSpec.pin] of [_spec_registry.py]: the fields of the stored
    specification with the class. *)
Definition pin (self : FitSpecBase.t) (cls : dataclass) : FitSpec.t :=
  {| FitSpec.base := self; FitSpec.clss := cls |}.

(** [get_fit_spec] of [_spec_registry.py]; the registry only memoises the
    result of [generate] per class and is left out. *)
Definition get_fit_spec (t : dataclass) : result FitSpec.t :=
  fs ← generate t; Ok (pin fs t).

(** [FitSpec.create_default_fit_instance] *)
Fixpoint resolve_defaults (pairs : list (string * DefaultResolver))
    (params : gmap string float) : result (gmap string float) :=
  match pairs with
  | [] => Ok params
  | (fname, resolver) :: pairs' =>
    value ← DefaultResolver_get resolver params;
    resolve_defaults pairs' (<[fname := value]> params)
  end.

Definition create_default_fit_instance (self : FitSpec.t) : result instance :=
  let init_order := FitSpecBase.init_order (FitSpec.base self) in
  let def_res := FitSpecBase.default_resolvers (FitSpec.base self) in
  params ← resolve_defaults (zip init_order def_res) ∅;
  construct (FitSpec.clss self) params.

(** [FitSpec.instance_to_array]; the result is [out] after the call. *)
Fixpoint write_fields (inst : instance) (i : nat) (fitting_params : list string)
    (out : list float) : result (list float) :=
  match fitting_params with
  | [] => Ok out
  | field :: rest =>
    v ← getattr inst field;
    out' ← setitem out i v;
    write_fields inst (S i) rest out'
  end.

Definition instance_to_array (self : FitSpec.t) (inst : instance)
    (out : list float) : result (list float) :=
  let num_params := FitSpecBase.fitting_param_count (FitSpec.base self) in
  if negb (length out =? num_params) then
    Raise (ValueError (InvalidShape (length out) num_params))
  else write_fields inst 0 (FitSpecBase.fitting_params (FitSpec.base self)) out.

(** [FitSpec.array_to_instance] *)
Fixpoint read_fields (array : list float) (i : nat) (fitting_params : list string)
    (kwargs : gmap string float) : result (gmap string float) :=
  match fitting_params with
  | [] => Ok kwargs
  | field :: rest =>
    v ← getitem array i;
    read_fields array (S i) rest (<[field := v]> kwargs)
  end.

Fixpoint resolve_dependent (resolvers : list DependentResolver.t)
    (kwargs : gmap string float) : result (gmap string float) :=
  match resolvers with
  | [] => Ok kwargs
  | resolver :: rest =>
    v ← DependentResolver.get resolver kwargs;
    resolve_dependent rest (<[DependentResolver.target resolver := v]> kwargs)
  end.

Definition array_to_instance (self : FitSpec.t) (array : list float)
  : result instance :=
  let num_params := FitSpecBase.fitting_param_count (FitSpec.base self) in
  let array_len := length array in
  if negb (array_len =? num_params) then
    Raise (ValueError (UnexpectedNumberOfParameters array_len num_params))
  else
    kwargs ← read_fields array 0 (FitSpecBase.fitting_params (FitSpec.base self)) ∅;
    kwargs ← resolve_dependent (FitSpecBase.dep_resolvers (FitSpec.base self)) kwargs;
    construct (FitSpec.clss self) kwargs.

(** ** Vocabulary of the statements *)

(** The graphs that can exist: built by [DepGraph.__init__] and changed by
    [add_dependency] only (whatever the outcome of the call). *)
Inductive constructible : DepGraph.t → Prop :=
| constructible_init fs : constructible (DepGraph.init fs)
| constructible_add g which source :
    constructible g →
    constructible (DepGraph.add_dependency g which source).2.

(** Node [i] depends on node [j]: the matrix stores an edge at (i, j). *)
Definition edge (g : DepGraph.matrix) (i j : nat) : Prop :=
  DepGraph.entry g i j ≠ 0%Z.

(** Field [a] depends on field [b]. *)
Definition depends_on (g : DepGraph.t) (a b : string) : Prop :=
  ∃ i j, DepGraph._key_map g !! a = Some i ∧
         DepGraph._key_map g !! b = Some j ∧
         edge (DepGraph._graph g) i j.

(** [x] is related to the first element of [l] and every element of [l]
    to the next one. *)
Fixpoint chain_from {A} (R : A → A → Prop) (x : A) (l : list A) : Prop :=
  match l with
  | [] => True
  | y :: l' => R x y ∧ chain_from R y l'
  end.

Definition chain {A} (R : A → A → Prop) (l : list A) : Prop :=
  match l with
  | [] => True
  | x :: l' => chain_from R x l'
  end.

(** A directed cycle of length [length c]: pairwise distinct nodes, each
    related to the next one and the last one to the first. *)
Definition directed_cycle {A} (R : A → A → Prop) (c : list A) : Prop :=
  match c with
  | [] => False
  | x :: l => NoDup (x :: l) ∧ chain_from R x (l ++ [x])
  end.

(** The invariant of the graphs that can exist. *)
Record wf (g : DepGraph.t) : Prop := mk_wf {
  wf_N : DepGraph.N g = length (DepGraph.fields g);
  wf_key_map : ∀ s i,
    DepGraph._key_map g !! s = Some i → DepGraph.fields g !! i = Some s;
  wf_key_dom : ∀ s,
    s ∈ DepGraph.fields g → is_Some (DepGraph._key_map g !! s);
  wf_entries : ∀ i j v,
    DepGraph._graph g !! (i, j) = Some v →
    v = (-1)%Z ∧ i ≠ j ∧ DepGraph._graph g !! (j, i) = None ∧
    ∃ a b, DepGraph._key_map g !! a = Some i ∧
           DepGraph._key_map g !! b = Some j;
  wf_num_deps : DepGraph._num_deps g = size (DepGraph._graph g)
}.

(** Reachability through the intermediate nodes [ks], in one or more
    steps: what the Floyd-Warshall loop has accounted for after the passes
    for [ks]. *)
Inductive reach (g : DepGraph.matrix) (ks : list nat) : nat → nat → Prop :=
| reach_edge i j : edge g i j → reach g ks i j
| reach_via i k j :
    k ∈ ks → reach g ks i k → reach g ks k j → reach g ks i j.

(** [D[i, j]] is finite and negative. *)
Definition negative_at (D : DepGraph.matrix) (i j : nat) : Prop :=
  ∃ d, D !! (i, j) = Some d ∧ (d < 0)%Z.

(** A finite distance [d] from [i] to [j] is either the 0 of the diagonal
    or negative and witnessed by a walk. *)
Definition witnessed (g : DepGraph.matrix) (i j : nat) (d : Z) : Prop :=
  (i = j ∧ d = 0%Z) ∨ ((d < 0)%Z ∧ tc (edge g) i j).

Definition sound (g D : DepGraph.matrix) : Prop :=
  ∀ i j d, D !! (i, j) = Some d → witnessed g i j d.

Definition complete (g : DepGraph.matrix) (ks : list nat)
    (D : DepGraph.matrix) : Prop :=
  ∀ i j, reach g ks i j → negative_at D i j.

(** [edge] as a test, and the number of nodes of [l] that [i] depends
    on. *)
Definition edgeb (g : DepGraph.matrix) (i j : nat) : bool :=
  negb (DepGraph.entry g i j =? 0)%Z.

Definition deps_in (g : DepGraph.matrix) (i : nat) (l : list nat) : nat :=
  length (List.filter (edgeb g i) l).

(** The order of the design document: "repeatedly pick, among remaining
    nodes, the first (in declaration order) node with zero remaining
    out-edges to other remaining nodes, remove it, and repeat".  A node is
    its position in the declaration order; [None] when no node can be
    picked. *)
Definition free_in (g : DepGraph.matrix) (remaining : list nat) (i : nat)
  : bool :=
  forallb (fun j => (j =? i) || (DepGraph.entry g i j =? 0)%Z) remaining.

Fixpoint first_free_order (g : DepGraph.matrix) (fuel : nat)
    (remaining : list nat) : option (list nat) :=
  match remaining with
  | [] => Some []
  | _ =>
    match List.find (free_in g remaining) remaining with
    | None => None
    | Some i =>
      match fuel with
      | 0 => None
      | S fuel' =>
        cons i <$> first_free_order g fuel' (filter (fun j => j ≠ i) remaining)
      end
    end
  end.

(** The invariant of the loop of [get_init_order]: the counter of every
    index still in the tree is minus the number of indices in the tree it
    depends on. *)
Record loop_inv (n : nat) (g : DepGraph.matrix) (idx_in_tree : list nat)
    (nnum_deps : list Z) : Prop := mk_loop_inv {
  inv_nodup : NoDup idx_in_tree;
  inv_range : ∀ i, i ∈ idx_in_tree → i < n;
  inv_length : length nnum_deps = n;
  inv_count : ∀ i, i ∈ idx_in_tree →
    DepGraph.at0 nnum_deps i = (- Z.of_nat (deps_in g i idx_in_tree))%Z
}.

(** The kinds of fields, as [generate] tells them apart. *)
Definition is_fitting (f : Field.t) : bool :=
  match Field.metadata f with
  | None | Some RegularField | Some (BoundedField _ _) => true
  | _ => false
  end.

Definition is_const (f : Field.t) : bool :=
  match Field.metadata f with
  | Some (ConstField _) => true
  | _ => false
  end.

Definition is_same_as (f : Field.t) : bool :=
  match Field.metadata f with
  | Some (SameAsField _) => true
  | _ => false
  end.

(** Among the fields [fs], the field [a] is declared the same as [b]. *)
Definition same_as_decl (fs : list Field.t) (a b : string) : Prop :=
  ∃ f, f ∈ fs ∧ Field.name f = a ∧ Field.metadata f = Some (SameAsField b).

(** The default resolver [generate] builds for a field. *)
Definition resolver_of (f : Field.t) : DefaultResolver :=
  match Field.metadata f with
  | None | Some RegularField =>
    match Field.default f with
    | None => UnsetDefaultResolver
    | Some d => FixedDefaultResolver d
    end
  | Some (BoundedField min max) =>
    FixedDefaultResolver (BoundedField.resolve_default min max (Field.default f))
  | Some (ConstField value) => FixedDefaultResolver value
  | Some (SameAsField dep_name) =>
    DependentDefaultResolver (DependentResolver.mk (Field.name f) dep_name)
  end.

(** The invariant of the loop of [generate] after the fields [seen]. *)
Record gen_inv (t : dataclass) (seen : list Field.t) (st : gen_state)
  : Prop := mk_gen_inv {
  gi_graph : constructible (depgraph st);
  gi_fields : DepGraph.fields (depgraph st) = map Field.name t;
  gi_special : special_fields st = map Field.name seen;
  gi_fitting :
    fitting_fields st
    = map Field.name (filter (fun f => is_fitting f = true) seen);
  gi_resolvers : default_resolvers st = map resolver_of seen;
  gi_deps : ∀ a b, depends_on (depgraph st) a b ↔ same_as_decl seen a b;
  gi_dep_map : ∀ a r,
    dep_resolver_map st !! a = Some r ↔
    ∃ b, r = DependentResolver.mk a b ∧ same_as_decl seen a b
}.

(** The bounds that [generate] collects on one side for the fields [fs],
    the first of which has position [i] among the constructor-relevant
    fields; [side] picks the bound when it is finite. *)
Definition lower_side (min max : float) : option float :=
  if BoundedField.min_finite min max then Some min else None.

Definition upper_side (min max : float) : option float :=
  if BoundedField.max_finite min max then Some max else None.

Definition bound_item (side : float → float → option float) (i : nat)
    (f : Field.t) : list (nat * float) :=
  match Field.metadata f with
  | Some (BoundedField min max) =>
    match side min max with
    | Some v => [(i, v)]
    | None => []
    end
  | _ => []
  end.

Fixpoint bound_items (side : float → float → option float) (i : nat)
    (fs : list Field.t) : list (nat * float) :=
  match fs with
  | [] => []
  | f :: fs' => bound_item side i f ++ bound_items side (S i) fs'
  end.

(** The bound of a fitting field on one side, [dflt] when it has none. *)
Definition bound_of (side : float → float → option float) (dflt : float)
    (f : Field.t) : float :=
  match Field.metadata f with
  | Some (BoundedField min max) => default dflt (side min max)
  | _ => dflt
  end.

(** Membership in, and distinctness of, a list that is written out. *)
Ltac solve_elem_of :=
  apply list_elem_of_In; vm_compute; auto 10.

Ltac solve_NoDup :=
  repeat constructor; rewrite ?list_elem_of_In; simpl; intuition discriminate.

(** ** The dependency graph *)

Lemma entry_Some (g : DepGraph.matrix) i j v :
  g !! (i, j) = Some v → DepGraph.entry g i j = v.
Proof. unfold DepGraph.entry. by intros ->. Qed.

Lemma entry_None (g : DepGraph.matrix) i j :
  g !! (i, j) = None → DepGraph.entry g i j = 0%Z.
Proof. unfold DepGraph.entry. by intros ->. Qed.

Lemma key_map_from_lookup fs : ∀ i km s k,
  DepGraph.key_map_from i fs km !! s = Some k →
  km !! s = Some k ∨ (i ≤ k ∧ fs !! (k - i) = Some s).
Proof.
  induction fs as [|f fs IH]; intros i km s k H; simpl in H; [by left|].
  apply IH in H as [H | [Hle Hl]].
  - destruct (decide (f = s)) as [->|Hne].
    + rewrite lookup_insert_eq in H. injection H as <-.
      right. split; [lia|]. by rewrite Nat.sub_diag.
    + rewrite lookup_insert_ne in H by done. by left.
  - right. split; [lia|].
    replace (k - i) with (S (k - S i)) by lia. done.
Qed.

Lemma key_map_from_dom fs : ∀ i km s,
  s ∈ fs ∨ is_Some (km !! s) → is_Some (DepGraph.key_map_from i fs km !! s).
Proof.
  induction fs as [|f fs IH]; intros i km s H; simpl.
  - destruct H as [H|H]; [by apply elem_of_nil in H | done].
  - apply IH. destruct H as [H|H].
    + apply elem_of_cons in H as [->|H]; [right | by left].
      rewrite lookup_insert_eq. by eexists.
    + right. destruct (decide (f = s)) as [->|Hne].
      * rewrite lookup_insert_eq. by eexists.
      * by rewrite lookup_insert_ne.
Qed.

Lemma wf_init fs : wf (DepGraph.init fs).
Proof.
  split; simpl.
  - done.
  - intros s i H. apply key_map_from_lookup in H as [H | [_ H]].
    + by rewrite lookup_empty in H.
    + by rewrite Nat.sub_0_r in H.
  - intros s H. apply key_map_from_dom. by left.
  - intros i j v H. by rewrite lookup_empty in H.
  - by rewrite map_size_empty.
Qed.

Lemma wf_add_dependency g which source :
  wf g → wf (DepGraph.add_dependency g which source).2.
Proof.
  intros Hwf. unfold DepGraph.add_dependency.
  destruct (decide (which = source)) as [|Hne]; [done|].
  destruct (DepGraph._key_map g !! which) as [wi|] eqn:Hwi; [|done].
  destruct (DepGraph._key_map g !! source) as [si|] eqn:Hsi; [|done].
  simpl.
  destruct (Z.eqb_spec (DepGraph.entry (DepGraph._graph g) wi si) (-1)) as [|Hv];
    simpl; [done|].
  destruct (Z.eqb_spec (DepGraph.entry (DepGraph._graph g) si wi) 0) as [Hrev|];
    simpl; [|done].
  assert (Hnone : DepGraph._graph g !! (wi, si) = None).
  { destruct (DepGraph._graph g !! (wi, si)) as [v|] eqn:Hl; [|done].
    destruct (wf_entries g Hwf _ _ _ Hl) as [-> _].
    by rewrite (entry_Some _ _ _ _ Hl) in Hv. }
  assert (Hnone' : DepGraph._graph g !! (si, wi) = None).
  { destruct (DepGraph._graph g !! (si, wi)) as [v|] eqn:Hl; [|done].
    destruct (wf_entries g Hwf _ _ _ Hl) as [-> _].
    by rewrite (entry_Some _ _ _ _ Hl) in Hrev. }
  assert (Hwisi : wi ≠ si).
  { intros ->. apply (wf_key_map g Hwf) in Hwi, Hsi. congruence. }
  destruct Hwf as [HN Hkm Hdom Hent Hnum].
  split; simpl; try done.
  - intros i j v. rewrite lookup_insert. case_decide as Heq.
    + injection Heq as <- <-. intros [= <-].
      split_and!; [done|done| |by exists which, source].
      rewrite lookup_insert_ne; [done | congruence].
    + intros Hl. destruct (Hent _ _ _ Hl) as (-> & Hij & Hji & Hab).
      split_and!; [done|done| |done].
      rewrite lookup_insert_ne; [done|].
      intros [= -> ->]. congruence.
  - rewrite map_size_insert_None by done. by rewrite Hnum.
Qed.

Lemma constructible_wf g : constructible g → wf g.
Proof. induction 1; [apply wf_init | by apply wf_add_dependency]. Qed.

Lemma edge_stored g i j :
  wf g → edge (DepGraph._graph g) i j →
  DepGraph._graph g !! (i, j) = Some (-1)%Z.
Proof.
  intros Hwf He. unfold edge, DepGraph.entry in He.
  destruct (DepGraph._graph g !! (i, j)) as [v|] eqn:Hl; [|done].
  by destruct (wf_entries g Hwf _ _ _ Hl) as [-> _].
Qed.

Lemma stored_edge (g : DepGraph.matrix) i j :
  g !! (i, j) = Some (-1)%Z → edge g i j.
Proof. intros H. unfold edge. by rewrite (entry_Some _ _ _ _ H). Qed.

Lemma edge_no_reverse g i j :
  wf g → edge (DepGraph._graph g) i j → DepGraph.entry (DepGraph._graph g) j i = 0%Z.
Proof.
  intros Hwf He. apply edge_stored in He; [|done].
  destruct (wf_entries g Hwf _ _ _ He) as (_ & _ & Hrev & _).
  by apply entry_None.
Qed.

(** C7.  On every graph that can exist, [add_dependency x x] raises the
    self-dependency error (InvalidDependency) for every name [x], and
    [add_dependency a b] for distinct [a], [b] raises the direct circular
    dependence error (CircularDependency) whenever [b] already depends on
    [a]; in both cases the object after the call is the object before it,
    so its edges and its dependency count are unchanged. *)
Theorem add_dependency_rejects (g : DepGraph.t) :
  constructible g →
  (∀ x, ∃ e, DepGraph.add_dependency g x x = (Raise e, g) ∧
             is_InvalidDependency e = true) ∧
  (∀ a b, a ≠ b → depends_on g b a →
     ∃ e, DepGraph.add_dependency g a b = (Raise e, g) ∧
          is_CircularDependency e = true).
Proof.
  intros Hc. apply constructible_wf in Hc as Hwf. split.
  - intros x. exists (ValueError (SelfDependency x)). split; [|done].
    unfold DepGraph.add_dependency. by rewrite decide_True.
  - intros a b Hab (i & j & Hi & Hj & He).
    exists (ValueError (DirectCircular a b)). split; [|done].
    unfold DepGraph.add_dependency.
    rewrite decide_False by done. rewrite Hj, Hi. simpl.
    rewrite (edge_no_reverse g i j Hwf He). simpl.
    destruct (Z.eqb_spec (DepGraph.entry (DepGraph._graph g) i j) 0); done.
Qed.

Lemma add_dependency_rejects_witness :
  let g := (DepGraph.add_dependency (DepGraph.init ["a"; "b"]) "b" "a").2 in
  (∃ e, DepGraph.add_dependency g "a" "a" = (Raise e, g) ∧
        is_InvalidDependency e = true) ∧
  (∃ e, DepGraph.add_dependency g "a" "b" = (Raise e, g) ∧
        is_CircularDependency e = true).
Proof.
  intros g.
  destruct (add_dependency_rejects g) as [H1 H2].
  { apply constructible_add, constructible_init. }
  split; [apply H1 | apply H2].
  - discriminate.
  - exists 1, 0. vm_compute. repeat split; discriminate.
Defined.

(** C8, as the code has it.  On every graph that can exist, for distinct
    fields [a] and [b] of the graph such that neither [b] depends on [a]
    nor [a] on [b] yet, [add_dependency a b] returns [True] and a second
    call returns [False]; the second call leaves the object as it is and
    the dependency count has grown by exactly one over the two calls. *)
Theorem add_dependency_twice (g : DepGraph.t) (a b : string) :
  constructible g →
  a ≠ b → a ∈ DepGraph.fields g → b ∈ DepGraph.fields g →
  ¬ depends_on g b a →
  ¬ depends_on g a b →
  ∃ g1, DepGraph.add_dependency g a b = (Ok true, g1) ∧
        DepGraph.add_dependency g1 a b = (Ok false, g1) ∧
        DepGraph.dependency_count g1 = S (DepGraph.dependency_count g).
Proof.
  intros Hc Hab Ha Hb Hba Hnew. apply constructible_wf in Hc as Hwf.
  destruct (wf_key_dom g Hwf a Ha) as [wi Hwi].
  destruct (wf_key_dom g Hwf b Hb) as [si Hsi].
  assert (H1 : DepGraph.entry (DepGraph._graph g) wi si = 0%Z).
  { destruct (Z.eq_dec (DepGraph.entry (DepGraph._graph g) wi si) 0%Z); [done|].
    exfalso. apply Hnew. by exists wi, si. }
  assert (H2 : DepGraph.entry (DepGraph._graph g) si wi = 0%Z).
  { destruct (Z.eq_dec (DepGraph.entry (DepGraph._graph g) si wi) 0%Z); [done|].
    exfalso. apply Hba. by exists si, wi. }
  eexists. split; [|split].
  - unfold DepGraph.add_dependency.
    rewrite decide_False by done. rewrite Hwi, Hsi. simpl.
    rewrite H1, H2. simpl. reflexivity.
  - assert (Hent : DepGraph.entry
                     (<[(wi, si) := (-1)%Z]> (DepGraph._graph g)) wi si = (-1)%Z).
    { unfold DepGraph.entry. by rewrite lookup_insert_eq. }
    unfold DepGraph.add_dependency. cbn [DepGraph._key_map DepGraph._graph].
    rewrite decide_False by done. rewrite Hwi, Hsi, Hent. reflexivity.
  - reflexivity.
Qed.

Lemma add_dependency_twice_witness :
  ∃ g1, DepGraph.add_dependency (DepGraph.init ["a"; "b"]) "a" "b" = (Ok true, g1) ∧
        DepGraph.add_dependency g1 "a" "b" = (Ok false, g1) ∧
        DepGraph.dependency_count g1 = 1.
Proof.
  apply (add_dependency_twice (DepGraph.init ["a"; "b"]) "a" "b").
  - apply constructible_init.
  - discriminate.
  - solve_elem_of.
  - solve_elem_of.
  - intros (i & j & Hi & Hj & He). vm_compute in Hi, Hj.
    injection Hi as <-. injection Hj as <-. vm_compute in He. congruence.
  - intros (i & j & Hi & Hj & He). vm_compute in Hi, Hj.
    injection Hi as <-. injection Hj as <-. vm_compute in He. congruence.
Defined.

(** C8 as stated fails on a graph in which [a] already depends on [b]:
    no reverse edge is present, and both calls return [False] and leave
    the dependency count as it was. *)
Lemma add_dependency_twice_counterexample :
  let g := (DepGraph.add_dependency (DepGraph.init ["a"; "b"]) "a" "b").2 in
  constructible g ∧ "a" ≠ "b" ∧
  "a" ∈ DepGraph.fields g ∧ "b" ∈ DepGraph.fields g ∧
  ¬ depends_on g "b" "a" ∧
  DepGraph.add_dependency g "a" "b" = (Ok false, g) ∧
  (DepGraph.add_dependency g "a" "b").1 ≠ Ok true.
Proof.
  intros g. split_and!.
  - apply constructible_add, constructible_init.
  - discriminate.
  - solve_elem_of.
  - solve_elem_of.
  - intros (i & j & Hi & Hj & He). vm_compute in Hi, Hj.
    injection Hi as <-. injection Hj as <-. vm_compute in He. congruence.
  - reflexivity.
  - discriminate.
Qed.

(** The examples of the test suite of the graph. *)
Example small_example :
  let g := (add_dependencies (DepGraph.init ["a"; "b"; "c"; "d"])
              [("a", "b"); ("b", "d"); ("c", "a"); ("c", "d")]).2 in
  DepGraph.has_closed_cycles g = false ∧
  DepGraph.dependency_count g = 4 ∧
  DepGraph.get_init_order g = Ok ["d"; "b"; "a"; "c"].
Proof. vm_compute. auto. Qed.

Example long_cycle :
  let g := (add_dependencies (DepGraph.init ["a"; "b"; "c"; "d"])
              [("a", "b"); ("b", "d"); ("c", "a"); ("c", "d"); ("d", "a")]).2 in
  DepGraph.has_closed_cycles g = true ∧
  DepGraph.get_init_order g = Raise (ValueError ClosedLoops).
Proof. vm_compute. auto. Qed.

(** ** Cycle detection: the Floyd-Warshall pass *)

Section floyd_warshall.

Variable n : nat.
Variable g : DepGraph.matrix.
Hypothesis g_entries : ∀ i j v,
  g !! (i, j) = Some v → v = (-1)%Z ∧ i < n ∧ j < n ∧ i ≠ j.

Lemma edge_inv i j : edge g i j → g !! (i, j) = Some (-1)%Z ∧ i < n ∧ j < n ∧ i ≠ j.
Proof.
  unfold edge, DepGraph.entry. intros He.
  destruct (g !! (i, j)) as [v|] eqn:Hl; [|done].
  destruct (g_entries _ _ _ Hl) as (-> & ? & ? & ?). done.
Qed.

Lemma zero_diagonal_lookup (l : list nat) (D : DepGraph.matrix) i j :
  fold_left (fun D i => <[(i, i) := 0%Z]> D) l D !! (i, j)
  = if decide (i = j ∧ i ∈ l) then Some 0%Z else D !! (i, j).
Proof.
  revert D. induction l as [|x l IH]; intros D; simpl.
  - rewrite decide_False; [done|]. intros [_ H]. by apply elem_of_nil in H.
  - rewrite IH. destruct (decide (i = j ∧ i ∈ l)) as [[-> Hin]|Hn].
    + rewrite decide_True; [done|]. split; [done|]. by apply elem_of_cons; right.
    + destruct (decide ((x, x) = (i, j))) as [[= -> ->]|Hne].
      * rewrite lookup_insert_eq, decide_True; [done|].
        split; [done|]. by apply elem_of_cons; left.
      * rewrite lookup_insert_ne by done.
        rewrite decide_False; [done|]. intros [-> Hin].
        apply elem_of_cons in Hin as [->|Hin]; [done|]. by apply Hn.
Qed.

(** *** Every finite distance is witnessed by a walk *)

Lemma sound_start : sound g (DepGraph.zero_diagonal n g).
Proof.
  intros i j d. unfold DepGraph.zero_diagonal. rewrite zero_diagonal_lookup.
  case_decide as H.
  - intros [= <-]. left. by destruct H.
  - intros Hl. destruct (g_entries _ _ _ Hl) as (-> & _).
    right. split; [lia|]. apply tc_once. by apply stored_edge.
Qed.

Lemma witnessed_add i k j d1 d2 :
  witnessed g i k d1 → witnessed g k j d2 → witnessed g i j (d1 + d2).
Proof.
  intros [[-> ->]|[Hd1 H1]] [[-> ->]|[Hd2 H2]].
  - by left.
  - right. by rewrite Z.add_0_l.
  - right. by rewrite Z.add_0_r.
  - right. split; [lia|]. by etrans.
Qed.

Lemma sound_relax k i d_ik D j :
  witnessed g i k d_ik → sound g D → sound g (DepGraph.relax k i d_ik D j).
Proof.
  intros Hik HD. unfold DepGraph.relax.
  destruct (D !! (k, j)) as [d_kj|] eqn:Hkj; [|done].
  assert (Hnew : sound g (<[(i, j) := (d_ik + d_kj)%Z]> D)).
  { intros a b d. rewrite lookup_insert. case_decide as Heq.
    - injection Heq as <- <-. intros [= <-].
      eapply witnessed_add; [done|]. by apply HD.
    - apply HD. }
  destruct (D !! (i, j)) as [d_ij|]; [|done].
  by destruct (d_ik + d_kj <? d_ij)%Z.
Qed.

Lemma sound_fold {A} (f : DepGraph.matrix → A → DepGraph.matrix) (l : list A) D :
  (∀ D x, sound g D → sound g (f D x)) →
  sound g D → sound g (fold_left f l D).
Proof.
  intros Hf. revert D. induction l as [|x l IH]; intros D HD; simpl; [done|].
  apply IH. by apply Hf.
Qed.

Lemma sound_relax_row k D i : sound g D → sound g (DepGraph.relax_row n k D i).
Proof.
  intros HD. unfold DepGraph.relax_row.
  destruct (D !! (i, k)) as [d_ik|] eqn:Hik; [|done].
  apply sound_fold; [|done].
  intros D' j. apply sound_relax. by apply HD.
Qed.

Lemma sound_shortest_paths : sound g (DepGraph.shortest_paths n g).
Proof.
  unfold DepGraph.shortest_paths.
  apply sound_fold; [|apply sound_start].
  intros D k HD. unfold DepGraph.relax_via.
  apply sound_fold; [|done]. intros D' i. apply sound_relax_row.
Qed.

(** *** Every walk ends up as a negative distance *)

Lemma negative_relax_mono k i d D j a b :
  negative_at D a b → negative_at (DepGraph.relax k i d D j) a b.
Proof.
  intros (dab & Hab & Hneg). unfold DepGraph.relax.
  destruct (D !! (k, j)) as [d_kj|] eqn:Hkj; [|by exists dab].
  destruct (decide ((i, j) = (a, b))) as [[= -> ->]|Hne].
  - rewrite Hab. destruct (Z.ltb_spec (d + d_kj) dab).
    + exists (d + d_kj)%Z. rewrite lookup_insert_eq. split; [done|lia].
    + by exists dab.
  - assert (Hins : ∀ v, negative_at (<[(i, j) := v]> D) a b).
    { intros v. exists dab. by rewrite lookup_insert_ne. }
    destruct (D !! (i, j)) as [d_ij|]; [|done].
    destruct (d + d_kj <? d_ij)%Z; [done|by exists dab].
Qed.

Lemma negative_relax_hit k i d D j :
  (d < 0)%Z → negative_at D k j → negative_at (DepGraph.relax k i d D j) i j.
Proof.
  intros Hd (d_kj & Hkj & Hneg). unfold DepGraph.relax. rewrite Hkj.
  destruct (D !! (i, j)) as [d_ij|] eqn:Hij.
  - destruct (Z.ltb_spec (d + d_kj) d_ij).
    + exists (d + d_kj)%Z. rewrite lookup_insert_eq. split; [done|lia].
    + exists d_ij. split; [done|lia].
  - exists (d + d_kj)%Z. rewrite lookup_insert_eq. split; [done|lia].
Qed.

Lemma negative_fold_mono {A} (f : DepGraph.matrix → A → DepGraph.matrix)
    (l : list A) D a b :
  (∀ D x, negative_at D a b → negative_at (f D x) a b) →
  negative_at D a b → negative_at (fold_left f l D) a b.
Proof.
  intros Hf. revert D. induction l as [|x l IH]; intros D HD; simpl; [done|].
  apply IH. by apply Hf.
Qed.

Lemma negative_relax_row_mono k D i a b :
  negative_at D a b → negative_at (DepGraph.relax_row n k D i) a b.
Proof.
  intros HD. unfold DepGraph.relax_row.
  destruct (D !! (i, k)) as [d_ik|]; [|done].
  apply negative_fold_mono; [|done].
  intros D' j. apply negative_relax_mono.
Qed.

Lemma negative_relax_via_mono D k a b :
  negative_at D a b → negative_at (DepGraph.relax_via n D k) a b.
Proof.
  intros HD. unfold DepGraph.relax_via.
  apply negative_fold_mono; [|done].
  intros D' i. apply negative_relax_row_mono.
Qed.

Lemma negative_inner_hit k i d (js : list nat) : ∀ D j,
  (d < 0)%Z → j ∈ js → negative_at D k j →
  negative_at (fold_left (DepGraph.relax k i d) js D) i j.
Proof.
  induction js as [|j0 js IH]; intros D j Hd Hin Hkj; simpl.
  - by apply elem_of_nil in Hin.
  - apply elem_of_cons in Hin as [->|Hin].
    + apply negative_fold_mono; [intros; by apply negative_relax_mono|].
      by apply negative_relax_hit.
    + apply IH; [done|done|]. by apply negative_relax_mono.
Qed.

Lemma negative_relax_row_hit k D i j :
  j < n → negative_at D i k → negative_at D k j →
  negative_at (DepGraph.relax_row n k D i) i j.
Proof.
  intros Hj (d_ik & Hik & Hneg) Hkj. unfold DepGraph.relax_row. rewrite Hik.
  apply negative_inner_hit; [done| |done].
  apply elem_of_seq. lia.
Qed.

Lemma negative_rows_hit k (rows : list nat) : ∀ D i j,
  i ∈ rows → j < n → negative_at D i k → negative_at D k j →
  negative_at (fold_left (DepGraph.relax_row n k) rows D) i j.
Proof.
  induction rows as [|i0 rows IH]; intros D i j Hin Hj Hik Hkj; simpl.
  - by apply elem_of_nil in Hin.
  - apply elem_of_cons in Hin as [->|Hin].
    + apply negative_fold_mono; [intros; by apply negative_relax_row_mono|].
      by apply negative_relax_row_hit.
    + apply IH; [done|done| |]; by apply negative_relax_row_mono.
Qed.

Lemma negative_relax_via_hit D k i j :
  i < n → j < n → negative_at D i k → negative_at D k j →
  negative_at (DepGraph.relax_via n D k) i j.
Proof.
  intros Hi Hj Hik Hkj. unfold DepGraph.relax_via.
  apply negative_rows_hit; [|done..]. apply elem_of_seq. lia.
Qed.

Lemma reach_lt ks i j : reach g ks i j → i < n ∧ j < n.
Proof.
  induction 1 as [i j He|i k j _ _ [Hi _] _ [_ Hj]]; [|done].
  apply edge_inv in He. tauto.
Qed.

Lemma reach_snoc ks k i j :
  reach g (ks ++ [k]) i j →
  reach g ks i j ∨ (reach g ks i k ∧ reach g ks k j).
Proof.
  induction 1 as [i j He|i k' j Hin _ IH1 _ IH2].
  - left. by apply reach_edge.
  - apply elem_of_app in Hin as [Hin|Hin].
    + destruct IH1 as [H1|[H1 H1']], IH2 as [H2|[H2 H2']].
      * left. by eapply reach_via.
      * right. split; [|done]. by eapply reach_via.
      * right. split; [done|]. by eapply reach_via.
      * right. done.
    + apply list_elem_of_singleton in Hin as ->.
      right. split.
      * by destruct IH1 as [H1|[H1 _]].
      * by destruct IH2 as [H2|[_ H2]].
Qed.

Lemma complete_start : complete g [] (DepGraph.zero_diagonal n g).
Proof.
  intros i j Hr. destruct Hr as [i j He|i k j Hin _ _].
  - apply edge_inv in He as (Hl & _ & _ & Hne).
    exists (-1)%Z. split; [|lia].
    unfold DepGraph.zero_diagonal. rewrite zero_diagonal_lookup.
    rewrite decide_False; [done|]. by intros [? _].
  - by apply elem_of_nil in Hin.
Qed.

Lemma complete_relax_via ks D k :
  complete g ks D → complete g (ks ++ [k]) (DepGraph.relax_via n D k).
Proof.
  intros HD i j Hr.
  destruct (reach_lt _ _ _ Hr) as [Hi Hj].
  apply reach_snoc in Hr as [Hr|[Hik Hkj]].
  - apply negative_relax_via_mono. by apply HD.
  - apply negative_relax_via_hit; [done|done| |]; by apply HD.
Qed.

Lemma complete_fold (todo : list nat) : ∀ ks D,
  complete g ks D →
  complete g (ks ++ todo) (fold_left (DepGraph.relax_via n) todo D).
Proof.
  induction todo as [|k todo IH]; intros ks D HD; simpl.
  - by rewrite app_nil_r.
  - replace (ks ++ k :: todo) with ((ks ++ [k]) ++ todo)
      by (by rewrite <- app_assoc).
    apply IH. by apply complete_relax_via.
Qed.

Lemma complete_shortest_paths :
  complete g (seq 0 n) (DepGraph.shortest_paths n g).
Proof. apply (complete_fold (seq 0 n) []), complete_start. Qed.

Lemma tc_reach i j : tc (edge g) i j → reach g (seq 0 n) i j.
Proof.
  induction 1 as [i j He|i k j He _ IH].
  - by apply reach_edge.
  - apply reach_via with k; [|by apply reach_edge|done].
    apply edge_inv in He. apply elem_of_seq. lia.
Qed.

(** The pass raises [NegativeCycleError] exactly when some node reaches
    itself in one or more steps. *)
Lemma floyd_warshall_None :
  DepGraph.floyd_warshall n g = None ↔ ∃ i, tc (edge g) i i.
Proof.
  unfold DepGraph.floyd_warshall, DepGraph.negative_diagonal.
  destruct (existsb _ _) eqn:Hex.
  - split; [intros _|done].
    apply existsb_exists in Hex as (i & _ & Hi).
    destruct (DepGraph.shortest_paths n g !! (i, i)) as [d|] eqn:Hl; [|done].
    apply Z.ltb_lt in Hi.
    destruct (sound_shortest_paths _ _ _ Hl) as [[_ ->]|[_ Htc]]; [lia|].
    by exists i.
  - split; [done|]. intros [i Htc]. exfalso.
    apply tc_reach in Htc as Hr.
    destruct (reach_lt _ _ _ Hr) as [Hi _].
    apply complete_shortest_paths in Hr as (d & Hd & Hneg).
    assert (existsb (fun i => match DepGraph.shortest_paths n g !! (i, i) with
                              | Some d => (d <? 0)%Z
                              | None => false
                              end) (seq 0 n) = true) as Htrue; [|congruence].
    apply existsb_exists. exists i. split.
    + apply in_seq. lia.
    + rewrite Hd. by apply Z.ltb_lt.
Qed.

End floyd_warshall.

(** ** Walks and cycles *)

Section cycles.

Context {A : Type} `{EqDecision A} (R : A → A → Prop).

Lemma chain_from_app x l1 l2 :
  chain_from R x (l1 ++ l2) → chain_from R x l1 ∧ chain R l2.
Proof.
  revert x. induction l1 as [|y l1 IH]; intros x; simpl.
  - intros H. split; [done|]. destruct l2; simpl in *; tauto.
  - intros [Hxy H]. apply IH in H. tauto.
Qed.

Lemma chain_infix l1 l2 l3 : chain R (l1 ++ l2 ++ l3) → chain R l2.
Proof.
  intros H.
  assert (H' : chain R (l2 ++ l3)).
  { destruct l1 as [|x l1]; [done|]. simpl in H.
    by apply chain_from_app in H as [_ H]. }
  destruct l2 as [|x l2]; [done|]. simpl in *.
  by apply chain_from_app in H' as [H' _].
Qed.

Lemma tc_walk x y : tc R x y → ∃ l, chain_from R x (l ++ [y]).
Proof.
  induction 1 as [x y H|x z y H _ [l IH]].
  - by exists [].
  - by exists (z :: l).
Qed.

Lemma walk_tc l : ∀ x y, chain_from R x (l ++ [y]) → tc R x y.
Proof.
  induction l as [|z l IH]; intros x y; simpl.
  - intros [H _]. by apply tc_once.
  - intros [H Hl]. eapply tc_l; [done|]. by apply IH.
Qed.

Lemma not_NoDup_split (l : list A) :
  ¬ NoDup l → ∃ y l1 l2 l3, l = l1 ++ y :: l2 ++ y :: l3.
Proof.
  induction l as [|a l IH]; intros Hn.
  - destruct Hn. constructor.
  - destruct (decide (a ∈ l)) as [Hin|Hnin].
    + apply list_elem_of_split in Hin as (l2 & l3 & ->).
      by exists a, [], l2, l3.
    + destruct IH as (y & l1 & l2 & l3 & ->).
      { intros Hnd. apply Hn. by constructor. }
      by exists y, (a :: l1), l2, l3.
Qed.

Lemma closed_walk_cycle (m : nat) : ∀ x l,
  (∀ x, ¬ R x x) → length l < m → chain_from R x (l ++ [x]) →
  ∃ c, 2 ≤ length c ∧ directed_cycle R c.
Proof.
  induction m as [|m IH]; intros x l Hirr Hlen Hw; [lia|].
  destruct (decide (NoDup (x :: l))) as [Hnd|Hnd].
  - exists (x :: l). split; [|done].
    destruct l as [|y l]; simpl in *; [|lia].
    destruct Hw as [Hxx _]. by apply Hirr in Hxx.
  - apply not_NoDup_split in Hnd as (y & l1 & l2 & l3 & Heq).
    apply (IH y l2 Hirr).
    + apply (f_equal length) in Heq. simpl in Heq.
      rewrite !length_app in Heq. simpl in Heq.
      rewrite !length_app in Heq. simpl in Heq. lia.
    + change (chain R ((x :: l) ++ [x])) in Hw. rewrite Heq in Hw.
      apply (chain_infix l1 (y :: l2 ++ [y]) (l3 ++ [x])).
      replace (l1 ++ (y :: l2 ++ [y]) ++ l3 ++ [x])
        with ((l1 ++ y :: l2 ++ y :: l3) ++ [x]); [done|].
      simpl. rewrite <- !app_assoc. simpl. rewrite <- !app_assoc. done.
Qed.

(** Some node reaches itself in one or more steps exactly when there is
    a directed cycle of length at least 2. *)
Lemma tc_closed_cycle :
  (∀ x, ¬ R x x) →
  (∃ x, tc R x x) ↔ ∃ c, 2 ≤ length c ∧ directed_cycle R c.
Proof.
  intros Hirr. split.
  - intros [x Hx]. apply tc_walk in Hx as [l Hl].
    apply (closed_walk_cycle (S (length l)) x l); [done|lia|done].
  - intros ([|x l] & _ & Hc); [done|]. destruct Hc as [_ Hw].
    exists x. by apply walk_tc in Hw.
Qed.

End cycles.

(** ** Cycles of the dependency graph *)

Lemma constructible_add_dependencies deps : ∀ g,
  constructible g → constructible (add_dependencies g deps).2.
Proof.
  induction deps as [|[w s] deps IH]; intros g Hg; simpl; [done|].
  pose proof (constructible_add g w s Hg) as Hg'.
  destruct (DepGraph.add_dependency g w s) as [[b| |] g']; simpl in *; auto.
Qed.

Lemma wf_index_lt g s i :
  wf g → DepGraph._key_map g !! s = Some i → i < DepGraph.N g.
Proof.
  intros Hwf H. apply (wf_key_map g Hwf) in H.
  rewrite (wf_N g Hwf). by apply lookup_lt_Some in H.
Qed.

Lemma wf_graph_entries g :
  wf g → ∀ i j v, DepGraph._graph g !! (i, j) = Some v →
  v = (-1)%Z ∧ i < DepGraph.N g ∧ j < DepGraph.N g ∧ i ≠ j.
Proof.
  intros Hwf i j v Hl.
  destruct (wf_entries g Hwf _ _ _ Hl) as (-> & Hne & _ & a & b & Ha & Hb).
  split_and!; [done| | |done]; by eapply wf_index_lt.
Qed.

Lemma has_closed_cycles_tc g :
  wf g →
  DepGraph.has_closed_cycles g = true ↔ ∃ i, tc (edge (DepGraph._graph g)) i i.
Proof.
  intros Hwf. unfold DepGraph.has_closed_cycles.
  rewrite <- (floyd_warshall_None _ _ (wf_graph_entries g Hwf)).
  by destruct (DepGraph.floyd_warshall _ _).
Qed.

Lemma key_map_inj g a b i :
  wf g → DepGraph._key_map g !! a = Some i → DepGraph._key_map g !! b = Some i →
  a = b.
Proof.
  intros Hwf Ha Hb. apply (wf_key_map g Hwf) in Ha, Hb. congruence.
Qed.

Lemma edge_depends_on g i j :
  wf g → edge (DepGraph._graph g) i j →
  ∃ a b, DepGraph._key_map g !! a = Some i ∧
         DepGraph._key_map g !! b = Some j ∧ depends_on g a b.
Proof.
  intros Hwf He. pose proof (edge_stored g i j Hwf He) as Hl.
  destruct (wf_entries g Hwf _ _ _ Hl) as (_ & _ & _ & a & b & Ha & Hb).
  exists a, b. split_and!; [done|done|]. by exists i, j.
Qed.

Lemma depends_on_irrefl g a : wf g → ¬ depends_on g a a.
Proof.
  intros Hwf (i & j & Hi & Hj & He).
  assert (i = j) as -> by congruence.
  apply edge_stored in He; [|done].
  by destruct (wf_entries g Hwf _ _ _ He) as (_ & Hne & _).
Qed.

Lemma tc_index_names g i j :
  wf g → tc (edge (DepGraph._graph g)) i j →
  ∃ a b, DepGraph._key_map g !! a = Some i ∧
         DepGraph._key_map g !! b = Some j ∧ tc (depends_on g) a b.
Proof.
  intros Hwf. induction 1 as [i j He|i k j He _ (b' & c & Hb' & Hc & Htc)].
  - destruct (edge_depends_on g i j Hwf He) as (a & b & Ha & Hb & Hd).
    exists a, b. split_and!; [done|done|]. by apply tc_once.
  - destruct (edge_depends_on g i k Hwf He) as (a & b & Ha & Hb & Hd).
    assert (b = b') as <- by (by eapply key_map_inj).
    exists a, c. split_and!; [done|done|]. by eapply tc_l.
Qed.

Lemma tc_names_index g a b :
  tc (depends_on g) a b →
  ∃ i j, DepGraph._key_map g !! a = Some i ∧
         DepGraph._key_map g !! b = Some j ∧ tc (edge (DepGraph._graph g)) i j.
Proof.
  induction 1 as [a b (i & j & Hi & Hj & He)
                 |a b c (i & j & Hi & Hj & He) _ (j' & k & Hj' & Hk & Htc)].
  - exists i, j. split_and!; [done|done|]. by apply tc_once.
  - assert (j = j') as <- by congruence.
    exists i, k. split_and!; [done|done|]. by eapply tc_l.
Qed.

Lemma has_closed_cycles_names g :
  wf g →
  DepGraph.has_closed_cycles g = true ↔
  ∃ c, 2 ≤ length c ∧ directed_cycle (depends_on g) c.
Proof.
  intros Hwf. rewrite has_closed_cycles_tc by done.
  rewrite <- tc_closed_cycle by (intros x; by apply depends_on_irrefl).
  split.
  - intros [i Hi]. apply tc_index_names in Hi as (a & b & Ha & Hb & Htc); [|done].
    assert (a = b) as <- by (by eapply key_map_inj). by exists a.
  - intros [a Ha]. apply tc_names_index in Ha as (i & j & Hi & Hj & Htc).
    assert (i = j) as <- by congruence. by exists i.
Qed.

(** C6.  On every graph that can exist, [has_closed_cycles] returns
    [True] exactly when the fields contain a directed cycle of length at
    least 2 of the depends-on relation; in particular, once the edges of a
    cycle of length at least 3 are in the graph, [has_closed_cycles]
    returns [True] and [get_init_order] raises the closed-loops error
    (CircularDependency). *)
Theorem has_closed_cycles_iff (g : DepGraph.t) :
  constructible g →
  (DepGraph.has_closed_cycles g = true ↔
   ∃ c, 2 ≤ length c ∧ directed_cycle (depends_on g) c) ∧
  (∀ c, 3 ≤ length c → directed_cycle (depends_on g) c →
        DepGraph.has_closed_cycles g = true ∧
        ∃ e, DepGraph.get_init_order g = Raise e ∧
             is_CircularDependency e = true).
Proof.
  intros Hc. apply constructible_wf in Hc as Hwf.
  split; [by apply has_closed_cycles_names|].
  intros c Hlen Hcyc.
  assert (Hcl : DepGraph.has_closed_cycles g = true).
  { apply has_closed_cycles_names; [done|]. exists c. split; [lia|done]. }
  split; [done|].
  exists (ValueError ClosedLoops). split; [|done].
  unfold DepGraph.get_init_order. by rewrite Hcl.
Qed.

Lemma has_closed_cycles_iff_witness :
  let g := (add_dependencies (DepGraph.init ["a"; "b"; "c"; "d"])
              [("a", "b"); ("b", "c"); ("c", "a")]).2 in
  DepGraph.has_closed_cycles g = true ∧
  ∃ e, DepGraph.get_init_order g = Raise e ∧ is_CircularDependency e = true.
Proof.
  intros g.
  destruct (has_closed_cycles_iff g) as [_ H].
  { apply constructible_add_dependencies, constructible_init. }
  apply (H ["a"; "b"; "c"]).
  - simpl. lia.
  - split.
    + solve_NoDup.
    + simpl. split_and!; [| | |done].
      * exists 0, 1. vm_compute. repeat split; discriminate.
      * exists 1, 2. vm_compute. repeat split; discriminate.
      * exists 2, 0. vm_compute. repeat split; discriminate.
Defined.

(** ** The initialisation order *)

Section init_order.

Variable n : nat.
Variable g : DepGraph.matrix.
Hypothesis g_entries : ∀ i j v,
  g !! (i, j) = Some v → v = (-1)%Z ∧ i < n ∧ j < n ∧ i ≠ j.

Lemma entry_cases i j :
  (DepGraph.entry g i j = 0%Z ∧ edgeb g i j = false) ∨
  (DepGraph.entry g i j = (-1)%Z ∧ edgeb g i j = true ∧ i ≠ j ∧ i < n ∧ j < n).
Proof.
  unfold edgeb, DepGraph.entry.
  destruct (g !! (i, j)) as [v|] eqn:Hl; simpl; [|by left].
  destruct (g_entries _ _ _ Hl) as (-> & ? & ? & ?). by right.
Qed.

Lemma edgeb_edge i j : edgeb g i j = true ↔ edge g i j.
Proof.
  unfold edgeb, edge. destruct (Z.eqb_spec (DepGraph.entry g i j) 0); simpl.
  - split; [done|]. intros H. by destruct H.
  - done.
Qed.

Lemma edgeb_diag i : edgeb g i i = false.
Proof. destruct (entry_cases i i) as [[_ H]|(_ & _ & H & _)]; done. Qed.

Lemma row_sum_fold i (l : list nat) : ∀ acc,
  fold_left (fun acc j => (acc + DepGraph.entry g i j)%Z) l acc
  = (acc - Z.of_nat (deps_in g i l))%Z.
Proof.
  unfold deps_in.
  induction l as [|j l IH]; intros acc; simpl; [lia|].
  rewrite IH.
  destruct (entry_cases i j) as [[-> ->]|(-> & -> & _)]; simpl; lia.
Qed.

Lemma row_sum_deps i :
  DepGraph.row_sum n g i = (- Z.of_nat (deps_in g i (seq 0 n)))%Z.
Proof. unfold DepGraph.row_sum. rewrite row_sum_fold. lia. Qed.

Lemma at0_insert (l : list Z) i j v :
  i < length l →
  DepGraph.at0 (<[i := v]> l) j = if decide (i = j) then v else DepGraph.at0 l j.
Proof.
  intros Hi. unfold DepGraph.at0. case_decide as Heq.
  - subst. by rewrite list_lookup_insert_eq.
  - by rewrite list_lookup_insert_ne.
Qed.

Lemma decrement_length idx (tree : list nat) : ∀ nn,
  length (DepGraph.decrement g idx tree nn) = length nn.
Proof.
  unfold DepGraph.decrement.
  induction tree as [|x tree IH]; intros nn; simpl; [done|].
  rewrite IH. destruct (_ =? _)%Z; [done|]. by rewrite length_insert.
Qed.

Lemma decrement_at0 idx (tree : list nat) : ∀ nn i,
  NoDup tree → (∀ x, x ∈ tree → x < length nn) →
  DepGraph.at0 (DepGraph.decrement g idx tree nn) i
  = if decide (i ∈ tree ∧ edgeb g i idx = true)
    then (DepGraph.at0 nn i + 1)%Z else DepGraph.at0 nn i.
Proof.
  unfold DepGraph.decrement.
  induction tree as [|x tree IH]; intros nn i Hnd Hlt; cbn [fold_left].
  - rewrite decide_False; [done|]. intros [H _]. by apply elem_of_nil in H.
  - apply NoDup_cons in Hnd as [Hx Hnd].
    assert (Hxlt : x < length nn) by (apply Hlt; by left).
    rewrite IH; [|done|].
    2:{ intros y Hy. destruct (_ =? _)%Z; [|rewrite length_insert];
        apply Hlt; by right. }
    fold (edgeb g x idx). unfold edgeb at 2.
    destruct (Z.eqb_spec (DepGraph.entry g x idx) 0) as [Hz|Hz].
    + destruct (decide (i ∈ tree ∧ edgeb g i idx = true)) as [[Hin He]|Hn].
      * rewrite decide_True; [done|]. split; [by right|done].
      * rewrite decide_False; [done|]. intros [Hin He].
        apply elem_of_cons in Hin as [->|Hin]; [|by apply Hn].
        unfold edgeb in He. rewrite Hz in He. done.
    + rewrite at0_insert by done.
      destruct (decide (i ∈ tree ∧ edgeb g i idx = true)) as [[Hin He]|Hn].
      * rewrite decide_False by (intros ->; done).
        rewrite decide_True; [done|]. split; [by right|done].
      * destruct (decide (x = i)) as [->|Hne].
        -- rewrite decide_True; [done|]. split; [by left|].
           unfold edgeb. by destruct (Z.eqb_spec (DepGraph.entry g i idx) 0).
        -- rewrite decide_False; [done|]. intros [Hin He].
           apply elem_of_cons in Hin as [->|Hin]; [done|by apply Hn].
Qed.

Lemma deps_in_remove i idx (tree : list nat) :
  NoDup tree → idx ∈ tree →
  deps_in g i tree
  = deps_in g i (DepGraph.set_remove idx tree)
    + (if edgeb g i idx then 1 else 0).
Proof.
  unfold deps_in, DepGraph.set_remove.
  induction tree as [|x tree IH]; intros Hnd Hin.
  - by apply elem_of_nil in Hin.
  - apply NoDup_cons in Hnd as [Hx Hnd].
    rewrite filter_cons. simpl.
    destruct (decide (x = idx)) as [->|Hne].
    + rewrite decide_False by (intros H; by apply H).
      assert (Hid : filter (fun j => j ≠ idx) tree = tree).
      { clear -Hx. induction tree as [|y tree IH]; [done|].
        rewrite filter_cons. apply not_elem_of_cons in Hx as [Hy Hx].
        rewrite decide_True by done. by rewrite IH. }
      rewrite Hid. destruct (edgeb g i idx); simpl; lia.
    + rewrite decide_True by done. simpl.
      apply elem_of_cons in Hin as [->|Hin]; [done|].
      specialize (IH Hnd Hin).
      destruct (edgeb g i x); simpl; lia.
Qed.

Lemma deps_in_0 i (l : list nat) :
  deps_in g i l = 0 ↔ ∀ j, j ∈ l → edgeb g i j = false.
Proof.
  unfold deps_in. induction l as [|x l IH]; simpl.
  - split; [|done]. intros _ j H. by apply elem_of_nil in H.
  - destruct (edgeb g i x) eqn:He; simpl.
    + split; [lia|]. intros H. specialize (H x). rewrite He in H.
      discriminate H. by left.
    + rewrite IH. split.
      * intros H j Hj. apply elem_of_cons in Hj as [->|Hj]; auto.
      * intros H j Hj. apply H. by right.
Qed.

Lemma free_in_deps i (l : list nat) :
  free_in g l i = true ↔ deps_in g i l = 0.
Proof.
  rewrite deps_in_0. unfold free_in. rewrite forallb_forall. split.
  - intros H j Hj. apply list_elem_of_In in Hj. specialize (H j Hj).
    apply orb_true_iff in H as [H|H].
    + apply Nat.eqb_eq in H as ->. apply edgeb_diag.
    + unfold edgeb. by rewrite H.
  - intros H j Hj. apply list_elem_of_In in Hj. specialize (H j Hj).
    unfold edgeb in H. apply negb_false_iff in H. rewrite H.
    by rewrite orb_true_r.
Qed.

Lemma find_ext_in {B} (p q : B → bool) (l : list B) :
  (∀ x, x ∈ l → p x = q x) → List.find p l = List.find q l.
Proof.
  induction l as [|x l IH]; intros H; simpl; [done|].
  rewrite <- (H x) by (by left).
  rewrite IH; [done|]. intros y Hy. apply H. by right.
Qed.

Lemma forallb_false {B} (p : B → bool) (l : list B) :
  forallb p l = false → ∃ x, x ∈ l ∧ p x = false.
Proof.
  induction l as [|x l IH]; simpl; [done|].
  destruct (p x) eqn:Hp; simpl.
  - intros H. destruct (IH H) as (y & Hy & Hpy). exists y. split; [by right|done].
  - intros _. exists x. split; [by left|done].
Qed.

Lemma remove_perm idx (tree : list nat) :
  NoDup tree → idx ∈ tree → tree ≡ₚ idx :: DepGraph.set_remove idx tree.
Proof.
  unfold DepGraph.set_remove.
  induction tree as [|x tree IH]; intros Hnd Hin.
  - by apply elem_of_nil in Hin.
  - apply NoDup_cons in Hnd as [Hx Hnd]. rewrite filter_cons.
    destruct (decide (x = idx)) as [->|Hne].
    + rewrite decide_False by (intros H; by apply H).
      assert (Hid : filter (fun j => j ≠ idx) tree = tree); [|by rewrite Hid].
      clear -Hx. induction tree as [|y tree IH]; [done|].
      rewrite filter_cons. apply not_elem_of_cons in Hx as [Hy Hx].
      rewrite decide_True by done. by rewrite IH.
    + rewrite decide_True by done.
      apply elem_of_cons in Hin as [->|Hin]; [done|].
      rewrite (IH Hnd Hin) at 1. apply Permutation_swap.
Qed.

Lemma loop_inv_start : loop_inv n g (seq 0 n) (DepGraph.sum_axis1 n g).
Proof.
  split.
  - apply NoDup_seq.
  - intros i Hi. apply elem_of_seq in Hi. lia.
  - unfold DepGraph.sum_axis1. by rewrite length_map, length_seq.
  - intros i Hi. apply elem_of_seq in Hi.
    unfold DepGraph.at0, DepGraph.sum_axis1.
    rewrite list_lookup_fmap, lookup_seq_lt by lia. simpl.
    apply row_sum_deps.
Qed.

Lemma loop_inv_step tree nnum idx :
  loop_inv n g tree nnum → idx ∈ tree →
  loop_inv n g (DepGraph.set_remove idx tree)
    (DepGraph.decrement g idx tree nnum).
Proof.
  intros [Hnd Hrange Hlen Hcount] Hin. split.
  - by apply NoDup_filter.
  - intros i Hi. apply list_elem_of_filter in Hi as [_ Hi]. by apply Hrange.
  - by rewrite decrement_length.
  - intros i Hi. apply list_elem_of_filter in Hi as [Hne Hi].
    rewrite decrement_at0; [|done|].
    2:{ intros x Hx. rewrite Hlen. by apply Hrange. }
    rewrite (Hcount i Hi), (deps_in_remove i idx tree Hnd Hin).
    destruct (edgeb g i idx) eqn:He.
    + rewrite decide_True by done. lia.
    + rewrite decide_False by (by intros [_ ?]). lia.
Qed.

Lemma loop_inv_find tree nnum :
  loop_inv n g tree nnum →
  List.find (fun idx => (DepGraph.at0 nnum idx =? 0)%Z) tree
  = List.find (free_in g tree) tree.
Proof.
  intros Hinv. apply find_ext_in. intros i Hi.
  rewrite (inv_count _ _ _ _ Hinv i Hi).
  destruct (free_in g tree i) eqn:Hf.
  - apply free_in_deps in Hf. rewrite Hf. done.
  - destruct (Z.eqb_spec (- Z.of_nat (deps_in g i tree)) 0) as [Hz|]; [|done].
    assert (deps_in g i tree = 0) as Hd by lia.
    apply free_in_deps in Hd. congruence.
Qed.

(** The loop of [get_init_order] computes the order of the design
    document. *)
Lemma init_order_loop_refines fuel : ∀ tree resolved nnum,
  loop_inv n g tree nnum →
  DepGraph.init_order_loop fuel g tree resolved nnum
  = match first_free_order g fuel tree with
    | Some l => Ok (resolved ++ l)
    | None => Diverge
    end.
Proof.
  induction fuel as [|fuel IH]; intros tree resolved nnum Hinv.
  - destruct tree as [|x tree]; cbn [DepGraph.init_order_loop first_free_order].
    + by rewrite app_nil_r.
    + rewrite (loop_inv_find _ _ Hinv). by destruct (List.find _ _).
  - destruct tree as [|x tree]; cbn [DepGraph.init_order_loop first_free_order].
    + by rewrite app_nil_r.
    + rewrite (loop_inv_find _ _ Hinv).
      destruct (List.find _ _) as [idx|] eqn:Hfind; [|done].
      apply find_some in Hfind as [Hin _]. apply list_elem_of_In in Hin.
      rewrite IH by (by apply loop_inv_step).
      unfold DepGraph.set_remove.
      destruct (first_free_order _ _ _) as [l|]; simpl; [|done].
      by rewrite <- app_assoc.
Qed.

(** Without edges the order is the declaration order. *)
Lemma first_free_order_no_edges fuel : ∀ tree,
  (∀ i j, edgeb g i j = false) → NoDup tree → length tree ≤ fuel →
  first_free_order g fuel tree = Some tree.
Proof.
  induction fuel as [|fuel IH]; intros tree Hno Hnd Hlen.
  - destruct tree; [done|simpl in Hlen; lia].
  - destruct tree as [|x tree]; [done|].
    cbn [first_free_order].
    assert (Hfree : free_in g (x :: tree) x = true).
    { apply free_in_deps, deps_in_0. intros; apply Hno. }
    cbn [List.find]. rewrite Hfree.
    apply NoDup_cons in Hnd as [Hx Hnd].
    rewrite filter_cons, decide_False by (intros H; by apply H).
    assert (Hid : filter (fun j => j ≠ x) tree = tree).
    { clear -Hx. induction tree as [|y tree IH]; [done|].
      rewrite filter_cons. apply not_elem_of_cons in Hx as [Hy Hx].
      rewrite decide_True by done. by rewrite IH. }
    rewrite Hid, IH; [done|done|done|simpl in Hlen; lia].
Qed.

(** In an acyclic graph every non-empty set of nodes has a node that
    depends on no node of the set. *)
Lemma no_minimal_contra (T : nat → nat → Prop) (l : list nat) :
  (∀ x, ¬ T x x) → (∀ x y z, T x y → T y z → T x z) →
  l ≠ [] → (∀ m, m ∈ l → ∃ y, y ∈ l ∧ T m y) → False.
Proof.
  intros Hirr Htrans. induction l as [|x l IH]; intros Hne Hsucc; [done|].
  destruct l as [|x' l].
  - destruct (Hsucc x) as (y & Hy & HT); [by left|].
    apply list_elem_of_singleton in Hy as ->. by apply Hirr in HT.
  - apply IH; [done|]. intros m Hm.
    destruct (Hsucc m) as (y & Hy & HT); [by right|].
    apply elem_of_cons in Hy as [->|Hy]; [|by exists y].
    destruct (Hsucc x) as (z & Hz & HT'); [by left|].
    apply elem_of_cons in Hz as [->|Hz]; [by apply Hirr in HT'|].
    exists z. split; [done|]. by eapply Htrans.
Qed.

Hypothesis acyclic : ∀ i, ¬ tc (edge g) i i.

Lemma exists_free (tree : list nat) :
  tree ≠ [] → ∃ idx, List.find (free_in g tree) tree = Some idx.
Proof.
  intros Hne. destruct (List.find _ _) as [idx|] eqn:Hfind; [by exists idx|].
  exfalso. apply (no_minimal_contra (tc (edge g)) tree); [done| |done|].
  - intros x y z H1 H2. by etrans.
  - intros m Hm. apply list_elem_of_In in Hm.
    pose proof (find_none _ _ Hfind m Hm) as Hf.
    apply forallb_false in Hf as (j & Hj & Hf).
    apply orb_false_iff in Hf as [_ Hf].
    exists j. split; [done|]. apply tc_once. unfold edge.
    by destruct (Z.eqb_spec (DepGraph.entry g m j) 0).
Qed.

Lemma first_free_order_acyclic fuel : ∀ tree,
  NoDup tree → length tree ≤ fuel →
  ∃ l, first_free_order g fuel tree = Some l ∧ l ≡ₚ tree ∧
       ∀ p q i j, l !! p = Some i → l !! q = Some j →
                  edgeb g i j = true → q < p.
Proof.
  induction fuel as [|fuel IH]; intros tree Hnd Hlen.
  - destruct tree; [|simpl in Hlen; lia].
    exists []. split_and!; [done|done|]. intros p q i j H. done.
  - destruct tree as [|x tree].
    { exists []. split_and!; [done|done|]. intros p q i j H. done. }
    destruct (exists_free (x :: tree)) as [idx Hfind]; [done|].
    cbn [first_free_order]. rewrite Hfind.
    apply find_some in Hfind as [Hin Hfree]. apply list_elem_of_In in Hin.
    pose proof (remove_perm idx _ Hnd Hin) as Hperm.
    unfold DepGraph.set_remove in Hperm.
    destruct (IH (filter (fun j => j ≠ idx) (x :: tree))) as (l & -> & Hl & Htopo).
    + by apply NoDup_filter.
    + apply Permutation_length in Hperm. simpl in Hperm, Hlen. lia.
    + exists (idx :: l). split_and!; [done| |].
      * by rewrite Hperm, Hl.
      * intros p q i j Hp Hq He.
        destruct p as [|p]; simpl in Hp.
        -- injection Hp as <-.
           apply free_in_deps in Hfree.
           assert (j ∈ x :: tree) as Hj.
           { rewrite Hperm, <- Hl. by apply list_elem_of_lookup_2 in Hq. }
           rewrite (proj1 (deps_in_0 idx _) Hfree j Hj) in He. done.
        -- destruct q as [|q]; [lia|]. simpl in Hq.
           specialize (Htopo p q i j Hp Hq He). lia.
Qed.

End init_order.

Lemma mapM_getitem {B} (fs : list B) (l : list nat) :
  (∀ i, i ∈ l → i < length fs) →
  ∃ names, mapM (getitem fs) l = Ok names ∧
           Forall2 (fun i a => fs !! i = Some a) l names.
Proof.
  induction l as [|i l IH]; intros Hlt; simpl.
  - exists []. split; [done|constructor].
  - destruct IH as (names & -> & HF).
    { intros j Hj. apply Hlt. by right. }
    assert (Hi : i < length fs) by (apply Hlt; by left).
    apply lookup_lt_is_Some_2 in Hi as [a Ha].
    exists (a :: names). unfold getitem. rewrite Ha. simpl.
    split; [done|]. by constructor.
Qed.

Lemma omap_lookup_seq {B} (pre fs : list B) :
  omap (fun i => (pre ++ fs) !! i) (seq (length pre) (length fs)) = fs.
Proof.
  revert pre. induction fs as [|f fs IH]; intros pre; [done|].
  simpl. rewrite list_lookup_middle by done. f_equal.
  specialize (IH (pre ++ [f])).
  rewrite length_app, Nat.add_1_r, <- app_assoc in IH. done.
Qed.

Lemma Forall2_lookup_perm (fs : list string) (l : list nat) names :
  Forall2 (fun i a => fs !! i = Some a) l names →
  l ≡ₚ seq 0 (length fs) → names ≡ₚ fs.
Proof.
  intros HF Hperm.
  assert (Hnames : names = omap (fun i => fs !! i) l).
  { clear Hperm. induction HF as [|i a l names Hia HF IH]; [done|].
    simpl. rewrite Hia. by rewrite IH. }
  assert (Hfs : omap (fun i => fs !! i) (seq 0 (length fs)) = fs)
    by apply (omap_lookup_seq []).
  rewrite Hnames, <- Hfs at 1. by rewrite Hperm, Hfs.
Qed.

Lemma Forall2_lookup_seq (fs : list string) names :
  Forall2 (fun i a => fs !! i = Some a) (seq 0 (length fs)) names →
  names = fs.
Proof.
  intros HF. apply list_eq. intros i.
  destruct (decide (i < length fs)) as [Hi|Hi].
  - pose proof (lookup_seq_lt 0 (length fs) i Hi) as Hs.
    destruct (Forall2_lookup_l _ _ _ _ _ HF Hs) as (a & Ha & Hfa).
    simpl in Hfa. by rewrite Ha, Hfa.
  - rewrite (lookup_ge_None_2 fs) by lia.
    apply lookup_ge_None_2.
    apply Forall2_length in HF. rewrite length_seq in HF. lia.
Qed.

Lemma acyclic_index g :
  wf g → ¬ (∃ c, 2 ≤ length c ∧ directed_cycle (depends_on g) c) →
  DepGraph.has_closed_cycles g = false ∧
  ∀ i, ¬ tc (edge (DepGraph._graph g)) i i.
Proof.
  intros Hwf Hno.
  assert (Hf : DepGraph.has_closed_cycles g = false).
  { destruct (DepGraph.has_closed_cycles g) eqn:Hc; [|done].
    destruct Hno. by apply has_closed_cycles_names. }
  split; [done|]. intros i Hi.
  assert (DepGraph.has_closed_cycles g = true); [|congruence].
  apply has_closed_cycles_tc; [done|]. by exists i.
Qed.

(** What [get_init_order] returns on a graph without closed cycles. *)
Lemma get_init_order_ok (g : DepGraph.t) :
  wf g → DepGraph.has_closed_cycles g = false →
  ∃ order idxs,
    DepGraph.get_init_order g = Ok order ∧
    order ≡ₚ DepGraph.fields g ∧
    (∀ a b, depends_on g a b →
       ∃ p q, order !! p = Some b ∧ order !! q = Some a ∧ p < q) ∧
    first_free_order (DepGraph._graph g) (DepGraph.N g) (seq 0 (DepGraph.N g))
      = Some idxs ∧
    Forall2 (fun i a => DepGraph.fields g !! i = Some a) idxs order ∧
    (DepGraph.N g = 0 ∨ DepGraph.dependency_count g = 0 →
     order = DepGraph.fields g).
Proof.
  intros Hwf Hcl.
  assert (Hacyc : ∀ i, ¬ tc (edge (DepGraph._graph g)) i i).
  { intros i Hi.
    assert (DepGraph.has_closed_cycles g = true); [|congruence].
    apply has_closed_cycles_tc; [done|]. by exists i. }
  pose proof (wf_graph_entries g Hwf) as Hent.
  destruct (first_free_order_acyclic _ _ Hent Hacyc (DepGraph.N g)
              (seq 0 (DepGraph.N g))) as (idxs & Hidxs & Hperm & Htopo).
  { apply NoDup_seq. } { by rewrite length_seq. }
  destruct (mapM_getitem (DepGraph.fields g) idxs) as (order & Hmap & HF).
  { intros i Hi. rewrite Hperm in Hi. apply elem_of_seq in Hi.
    rewrite <- (wf_N g Hwf). lia. }
  assert (Hget : DepGraph.get_init_order g = Ok order).
  { unfold DepGraph.get_init_order. rewrite Hcl.
    rewrite (init_order_loop_refines _ _ Hent)
      by apply (loop_inv_start _ _ Hent).
    rewrite Hidxs. exact Hmap. }
  exists order, idxs. split_and!; [done| | |done|done|].
  - apply (Forall2_lookup_perm _ idxs); [done|]. by rewrite <- (wf_N g Hwf).
  - intros a b (i & j & Hi & Hj & He).
    assert (Hin : i ∈ idxs ∧ j ∈ idxs).
    { rewrite !Hperm, !elem_of_seq.
      pose proof (wf_index_lt g a i Hwf Hi).
      pose proof (wf_index_lt g b j Hwf Hj). lia. }
    destruct Hin as [Hini Hinj].
    apply list_elem_of_lookup in Hini as [q Hq], Hinj as [p Hp].
    destruct (Forall2_lookup_l _ _ _ _ _ HF Hq) as (a' & Ha' & Hfa).
    destruct (Forall2_lookup_l _ _ _ _ _ HF Hp) as (b' & Hb' & Hfb).
    simpl in Hfa, Hfb.
    rewrite (wf_key_map g Hwf a i Hi) in Hfa.
    rewrite (wf_key_map g Hwf b j Hj) in Hfb.
    injection Hfa as <-. injection Hfb as <-.
    exists p, q. split_and!; [done|done|].
    apply (Htopo q p i j Hq Hp). by apply edgeb_edge.
  - intros Hzero.
    assert (Hseq : idxs = seq 0 (DepGraph.N g)).
    { destruct Hzero as [Hz|Hz].
      - rewrite Hz in *. simpl in Hidxs. by injection Hidxs as <-.
      - assert (Hempty : DepGraph._graph g = ∅).
        { apply map_size_empty_iff. rewrite <- (wf_num_deps g Hwf). done. }
        rewrite (first_free_order_no_edges _ _ Hent) in Hidxs.
        + by injection Hidxs as <-.
        + intros i j. unfold edgeb, DepGraph.entry.
          by rewrite Hempty, lookup_empty.
        + apply NoDup_seq.
        + by rewrite length_seq. }
    subst idxs. rewrite (wf_N g Hwf) in HF.
    by apply Forall2_lookup_seq.
Qed.

(** C3.  On every acyclic graph that can exist, [get_init_order] returns
    an order that is a rearrangement of the fields in which every field
    comes after every field it depends on, and that is the order obtained
    by repeatedly picking the first remaining node, in declaration order,
    that depends on no other remaining node; with no node or no edge it is
    the declaration order itself. *)
Theorem get_init_order_topological (g : DepGraph.t) :
  constructible g →
  ¬ (∃ c, 2 ≤ length c ∧ directed_cycle (depends_on g) c) →
  ∃ order idxs,
    DepGraph.get_init_order g = Ok order ∧
    order ≡ₚ DepGraph.fields g ∧
    (∀ a b, depends_on g a b →
       ∃ p q, order !! p = Some b ∧ order !! q = Some a ∧ p < q) ∧
    first_free_order (DepGraph._graph g) (DepGraph.N g) (seq 0 (DepGraph.N g))
      = Some idxs ∧
    Forall2 (fun i a => DepGraph.fields g !! i = Some a) idxs order ∧
    (DepGraph.N g = 0 ∨ DepGraph.dependency_count g = 0 →
     order = DepGraph.fields g).
Proof.
  intros Hc Hno. apply constructible_wf in Hc as Hwf.
  apply get_init_order_ok; [done|].
  by destruct (acyclic_index g Hwf Hno).
Qed.

Lemma get_init_order_topological_witness :
  let g := (add_dependencies (DepGraph.init ["a"; "b"; "c"; "d"])
              [("a", "b"); ("b", "d"); ("c", "a"); ("c", "d")]).2 in
  ∃ order idxs,
    DepGraph.get_init_order g = Ok order ∧
    order ≡ₚ DepGraph.fields g ∧
    (∀ a b, depends_on g a b →
       ∃ p q, order !! p = Some b ∧ order !! q = Some a ∧ p < q) ∧
    first_free_order (DepGraph._graph g) (DepGraph.N g) (seq 0 (DepGraph.N g))
      = Some idxs ∧
    Forall2 (fun i a => DepGraph.fields g !! i = Some a) idxs order ∧
    (DepGraph.N g = 0 ∨ DepGraph.dependency_count g = 0 →
     order = DepGraph.fields g).
Proof.
  intros g. apply get_init_order_topological.
  - apply constructible_add_dependencies, constructible_init.
  - rewrite <- has_closed_cycles_names.
    + vm_compute. discriminate.
    + apply constructible_wf, constructible_add_dependencies, constructible_init.
Defined.

(** ** Specification generation *)

Lemma add_dependency_Ok g w s b g' :
  wf g → DepGraph.add_dependency g w s = (Ok b, g') →
  DepGraph.fields g' = DepGraph.fields g ∧
  ∀ x y, depends_on g' x y ↔ depends_on g x y ∨ (x = w ∧ y = s).
Proof.
  intros Hwf. unfold DepGraph.add_dependency.
  destruct (decide (w = s)) as [|Hne]; [done|].
  destruct (DepGraph._key_map g !! w) as [wi|] eqn:Hwi; [|done].
  destruct (DepGraph._key_map g !! s) as [si|] eqn:Hsi; [|done].
  cbn zeta.
  destruct (Z.eqb_spec (DepGraph.entry (DepGraph._graph g) wi si) (-1)) as [Hv|Hv];
    cbn [negb].
  - intros [= <- <-]. split; [done|]. intros x y. split; [by left|].
    intros [H|[-> ->]]; [done|]. exists wi, si. split_and!; [done|done|].
    unfold edge. rewrite Hv. done.
  - destruct (Z.eqb_spec (DepGraph.entry (DepGraph._graph g) si wi) 0) as [Hr|Hr];
      cbn [negb]; [|done].
    intros [= <- <-]. split; [done|]. intros x y. unfold depends_on. simpl.
    split.
    + intros (i & j & Hi & Hj & He).
      destruct (decide ((wi, si) = (i, j))) as [[= <- <-]|Hij].
      * right. split; by eapply key_map_inj.
      * left. exists i, j. split_and!; [done|done|].
        unfold edge, DepGraph.entry in *. by rewrite lookup_insert_ne in He.
    + intros [(i & j & Hi & Hj & He)|[-> ->]].
      * exists i, j. split_and!; [done|done|].
        unfold edge, DepGraph.entry in *.
        destruct (decide ((wi, si) = (i, j))) as [[= <- <-]|Hij].
        -- by rewrite lookup_insert_eq.
        -- by rewrite lookup_insert_ne.
      * exists wi, si. split_and!; [done|done|].
        unfold edge, DepGraph.entry. by rewrite lookup_insert_eq.
Qed.

Lemma add_dependency_Raise g w s e g' :
  wf g → DepGraph.add_dependency g w s = (Raise e, g') →
  w ≠ s → w ∈ DepGraph.fields g → s ∈ DepGraph.fields g →
  is_CircularDependency e = true.
Proof.
  intros Hwf Hadd Hne Hw Hs. unfold DepGraph.add_dependency in Hadd.
  rewrite decide_False in Hadd by done.
  destruct (wf_key_dom g Hwf w Hw) as [wi Hwi].
  destruct (wf_key_dom g Hwf s Hs) as [si Hsi].
  rewrite Hwi, Hsi in Hadd. cbn zeta in Hadd.
  destruct (negb _); [|done]. destruct (negb _); [|done].
  by injection Hadd as <- <-.
Qed.

Lemma add_dependency_no_diverge g w s g' :
  DepGraph.add_dependency g w s ≠ (Diverge, g').
Proof.
  unfold DepGraph.add_dependency.
  destruct (decide (w = s)); [done|].
  destruct (_ !! w); [|done]. destruct (_ !! s); [|done].
  cbn zeta. destruct (negb _); [|done]. by destruct (negb _).
Qed.

Lemma same_as_decl_snoc seen fld a b :
  same_as_decl (seen ++ [fld]) a b ↔
  same_as_decl seen a b ∨
  (Field.name fld = a ∧ Field.metadata fld = Some (SameAsField b)).
Proof.
  unfold same_as_decl. split.
  - intros (f & Hf & Hn & Hm). apply elem_of_app in Hf as [Hf|Hf].
    + left. by exists f.
    + apply list_elem_of_singleton in Hf as ->. by right.
  - intros [(f & Hf & Hn & Hm)|[Hn Hm]].
    + exists f. split; [|done]. apply elem_of_app. by left.
    + exists fld. split; [|done]. apply elem_of_app. right.
      by apply list_elem_of_singleton.
Qed.

Lemma gen_inv_init t : gen_inv t [] (gen_state_init t).
Proof.
  split; simpl; try done.
  - apply constructible_init.
  - intros a b. split.
    + intros (i & j & _ & _ & He). unfold edge, DepGraph.entry in He.
      simpl in He. by rewrite lookup_empty in He.
    + intros (f & Hf & _). by apply elem_of_nil in Hf.
  - intros a r. rewrite lookup_empty. split; [done|].
    intros (b & _ & f & Hf & _). by apply elem_of_nil in Hf.
Qed.

Lemma gen_inv_step t seen st i fld st' :
  gen_inv t seen st →
  NoDup (map Field.name (seen ++ [fld])) →
  gen_step st i fld = Ok st' →
  gen_inv t (seen ++ [fld]) st'.
Proof.
  intros [Hg Hfs Hsp Hfit Hres Hdeps Hmap] Hnd Hstep.
  assert (Hfresh : ∀ b, ¬ same_as_decl seen (Field.name fld) b).
  { intros b (f & Hf & Hn & _).
    rewrite map_app in Hnd. apply NoDup_app in Hnd as (_ & Hnd & _).
    apply (Hnd (Field.name f)).
    - apply list_elem_of_In, in_map, list_elem_of_In, Hf.
    - rewrite Hn. simpl. by left. }
  assert (Hplain : Field.metadata fld ≠ None →
                   (∀ tgt, Field.metadata fld ≠ Some (SameAsField tgt)) →
                   ∀ a b, same_as_decl (seen ++ [fld]) a b ↔ same_as_decl seen a b).
  { intros _ Hno a b. rewrite same_as_decl_snoc. split; [|by left].
    intros [H|[_ H]]; [done|]. by apply Hno in H. }
  assert (Hplain' : (∀ tgt, Field.metadata fld ≠ Some (SameAsField tgt)) →
                   ∀ a b, same_as_decl (seen ++ [fld]) a b ↔ same_as_decl seen a b).
  { intros Hno a b. rewrite same_as_decl_snoc. split; [|by left].
    intros [H|[_ H]]; [done|]. by apply Hno in H. }
  unfold gen_step, get_special_fitting_field in Hstep.
  destruct (Field.metadata fld) as [[mn mx|v|tgt|]|] eqn:Hmeta.
  1,2,4,5: injection Hstep as <-; split; simpl;
    [ done | done
    | by rewrite Hsp, map_app
    | rewrite filter_app, map_app, Hfit, filter_cons, filter_nil;
      unfold is_fitting; rewrite Hmeta; simpl; by rewrite ?app_nil_r
    | rewrite map_app, Hres; simpl; unfold resolver_of; by rewrite Hmeta
    | intros a b; rewrite Hdeps; symmetry; apply Hplain'; congruence
    | intros a r; rewrite Hmap; split;
      intros (b & Hr & Hd); exists b; (split; [done|]);
      apply (Hplain' ltac:(congruence)); done ].
  destruct (DepGraph.add_dependency (depgraph st) (Field.name fld) tgt)
    as [[b| |] g'] eqn:Hadd; [|done|done].
  injection Hstep as <-.
  destruct (add_dependency_Ok _ _ _ _ _ (constructible_wf _ Hg) Hadd)
    as [Hfields Hdep'].
  split; simpl.
  - replace g' with (DepGraph.add_dependency (depgraph st) (Field.name fld) tgt).2
      by (by rewrite Hadd).
    by apply constructible_add.
  - by rewrite Hfields.
  - by rewrite Hsp, map_app.
  - rewrite filter_app, map_app, Hfit, filter_cons, filter_nil.
    unfold is_fitting. rewrite Hmeta. simpl. by rewrite app_nil_r.
  - rewrite map_app, Hres. simpl. unfold resolver_of. by rewrite Hmeta.
  - intros a b'. rewrite Hdep', Hdeps, same_as_decl_snoc, Hmeta.
    split; (intros [H|[H1 H2]]; [by left|right]).
    + by subst.
    + injection H2 as ->. done.
  - intros a r. rewrite lookup_insert. case_decide as Heq.
    + subst a. split.
      * intros [= <-]. exists tgt. split; [done|].
        apply same_as_decl_snoc. by right.
      * intros (b' & -> & Hd). apply same_as_decl_snoc in Hd as [Hd|[_ Hd]].
        -- by apply Hfresh in Hd.
        -- rewrite Hmeta in Hd. by injection Hd as ->.
    + rewrite Hmap. split; intros (b' & Hr & Hd); exists b'; (split; [done|]).
      * apply same_as_decl_snoc. by left.
      * apply same_as_decl_snoc in Hd as [Hd|[Hd _]]; [done|]. done.
Qed.

Lemma bind_Ok_l {B C} (b : B) (k : B → result C) : Ok b ≫= k = k b.
Proof. done. Qed.

Lemma bind_Ok {B C} (r : result B) (k : B → result C) c :
  r ≫= k = Ok c → ∃ b, r = Ok b ∧ k b = Ok c.
Proof. destruct r as [b| |]; [|done|done]. intros H. by exists b. Qed.

Lemma NoDup_map_filter {B C} (f : B → C) (P : B → Prop)
    `{∀ x, Decision (P x)} (l : list B) :
  NoDup (map f l) → NoDup (map f (filter P l)).
Proof.
  induction l as [|x l IH]; simpl; [done|].
  intros Hnd. apply NoDup_cons in Hnd as [Hx Hnd].
  rewrite filter_cons. case_decide; [|by apply IH].
  simpl. apply NoDup_cons. split; [|by apply IH].
  intros Hin. apply Hx.
  apply list_elem_of_In, in_map_iff in Hin as (y & Hy & Hin).
  apply list_elem_of_In, in_map_iff. exists y. split; [done|].
  apply list_elem_of_In. apply list_elem_of_In, list_elem_of_filter in Hin. tauto.
Qed.

Lemma gen_loop_inv t rest : ∀ seen st i st',
  gen_inv t seen st →
  NoDup (map Field.name (seen ++ rest)) →
  gen_loop st i rest = Ok st' →
  gen_inv t (seen ++ rest) st'.
Proof.
  induction rest as [|fld rest IH]; intros seen st i st' Hinv Hnd Hloop.
  - simpl in Hloop. injection Hloop as <-. by rewrite app_nil_r.
  - simpl in Hloop. apply bind_Ok in Hloop as (st1 & Hstep & Hloop).
    replace (seen ++ fld :: rest) with ((seen ++ [fld]) ++ rest) in *
      by (by rewrite <- app_assoc).
    eapply IH; [|done|done].
    eapply gen_inv_step; [done| |done].
    rewrite map_app in Hnd. by apply NoDup_app in Hnd as (Hnd & _).
Qed.

Lemma gen_step_no_diverge st i fld : gen_step st i fld ≠ Diverge.
Proof.
  unfold gen_step, get_special_fitting_field.
  destruct (Field.metadata fld) as [[mn mx|v|tgt|]|]; try done.
  destruct (DepGraph.add_dependency _ _ _) as [[b| |] g'] eqn:Hadd; try done.
  by apply add_dependency_no_diverge in Hadd.
Qed.

Lemma gen_loop_no_diverge rest : ∀ st i, gen_loop st i rest ≠ Diverge.
Proof.
  induction rest as [|fld rest IH]; intros st i; simpl; [done|].
  pose proof (gen_step_no_diverge st i fld) as Hs.
  destruct (gen_step st i fld) as [st1| |]; [apply IH|done|done].
Qed.

Lemma generate_Ok_inv t spec :
  NoDup (map Field.name t) →
  generate t = Ok spec →
  ∃ st,
    gen_loop (gen_state_init t) 0 (init_fields t) = Ok st ∧
    gen_inv t (init_fields t) st ∧
    FitSpecBase.special_param_count spec = length (special_fields st) ∧
    FitSpecBase.fitting_params spec = fitting_fields st ∧
    FitSpecBase.fitting_param_count spec = length (fitting_fields st) ∧
    FitSpecBase.default_resolvers spec = default_resolvers st ∧
    _process_bounds (set_lower_bounds st) (length (fitting_fields st))
      neg_infinity = Ok (FitSpecBase.lower_bounds spec) ∧
    _process_bounds (set_upper_bounds st) (length (fitting_fields st))
      infinity = Ok (FitSpecBase.upper_bounds spec) ∧
    ((DepGraph.dependency_count (depgraph st) = 0 ∧
      FitSpecBase.init_order spec = special_fields st ∧
      FitSpecBase.dep_resolvers spec = []) ∨
     (0 < DepGraph.dependency_count (depgraph st) ∧
      DepGraph.has_closed_cycles (depgraph st) = false ∧
      ∃ order,
        DepGraph.get_init_order (depgraph st) = Ok order ∧
        FitSpecBase.init_order spec
        = filter (fun f => f ∈ special_fields st) order ∧
        FitSpecBase.dep_resolvers spec
        = get_dep_resolvers (dep_resolver_map st) (FitSpecBase.init_order spec))).
Proof.
  intros Hnd Hgen. unfold generate in Hgen.
  apply bind_Ok in Hgen as (st & Hloop & Hgen).
  exists st. split; [done|].
  assert (Hinv : gen_inv t (init_fields t) st).
  { apply (gen_loop_inv t (init_fields t) [] _ 0 st (gen_inv_init t)); [|done].
    simpl. by apply NoDup_map_filter. }
  split; [done|].
  destruct (negb _); [done|].
  apply bind_Ok in Hgen as ([init_order dep_resolvers_seq] & Hord & Hgen).
  apply bind_Ok in Hgen as (lower & Hlow & Hgen).
  apply bind_Ok in Hgen as (upper & Hup & Hgen).
  injection Hgen as <-. simpl.
  split_and!; try done.
  destruct (0 <? DepGraph.dependency_count (depgraph st)) eqn:Hcount.
  - right. apply Nat.ltb_lt in Hcount. split; [done|].
    destruct (DepGraph.has_closed_cycles (depgraph st)); [done|].
    split; [done|].
    apply bind_Ok in Hord as (order & Hget & Hord).
    exists order. split; [done|].
    destruct (negb _); [done|]. by injection Hord as <- <-.
  - left. apply Nat.ltb_ge in Hcount. injection Hord as <- <-.
    split; [lia|done].
Qed.

Lemma count_kinds (l : list Field.t) :
  length (filter (fun f => is_fitting f = true) l)
  + length (filter (fun f => is_const f = true) l)
  + length (filter (fun f => is_same_as f = true) l)
  = length l.
Proof.
  induction l as [|f l IH]; [done|].
  rewrite !filter_cons. unfold is_fitting, is_const, is_same_as in *.
  destruct (Field.metadata f) as [[mn mx|v|tgt|]|];
    repeat case_decide; try discriminate; simpl; lia.
Qed.

Lemma filter_ext_in {B} (P Q : B → Prop) `{∀ x, Decision (P x)}
    `{∀ x, Decision (Q x)} (l : list B) :
  (∀ x, x ∈ l → P x ↔ Q x) → filter P l = filter Q l.
Proof.
  induction l as [|x l IH]; intros Hext; [done|].
  rewrite !filter_cons.
  assert (Hx : P x ↔ Q x) by (apply Hext; by left).
  rewrite IH by (intros y Hy; apply Hext; by right).
  destruct (decide (P x)), (decide (Q x)); tauto.
Qed.

Lemma filter_names (P : Field.t → Prop) `{∀ x, Decision (P x)}
    (t : list Field.t) :
  NoDup (map Field.name t) →
  filter (fun a => a ∈ map Field.name (filter P t)) (map Field.name t)
  = map Field.name (filter P t).
Proof.
  induction t as [|f t IH]; [done|]. simpl.
  intros Hnd. apply NoDup_cons in Hnd as [Hf Hnd].
  assert (Hsub : ∀ a, a ∈ map Field.name (filter P t) → a ∈ map Field.name t).
  { intros a Ha. apply list_elem_of_In, in_map_iff in Ha as (y & Hy & Hin).
    apply list_elem_of_In, in_map_iff. exists y. split; [done|].
    apply list_elem_of_In. apply list_elem_of_In, list_elem_of_filter in Hin. tauto. }
  rewrite (filter_cons P). destruct (decide (P f)) as [HP|HP].
  - simpl. rewrite filter_cons, decide_True by (by left). f_equal.
    etrans; [|by apply IH]. apply filter_ext_in. intros a Ha.
    rewrite elem_of_cons. split; [|by right].
    intros [->|Hin]; [by destruct Hf|done].
  - rewrite filter_cons, decide_False by (intros Hin; by apply Hf, Hsub).
    by apply IH.
Qed.

Lemma filter_order {B} (P : B → Prop) `{∀ x, Decision (P x)}
    (l : list B) p q a b :
  l !! p = Some b → l !! q = Some a → p < q → P a → P b →
  ∃ p' q', filter P l !! p' = Some b ∧ filter P l !! q' = Some a ∧ p' < q'.
Proof.
  intros Hp Hq Hlt Ha Hb.
  apply list_elem_of_split_length in Hp as (l1 & r & -> & ->).
  rewrite lookup_app_r in Hq by lia.
  replace (q - length l1) with (S (q - length l1 - 1)) in Hq by lia.
  simpl in Hq.
  apply list_elem_of_split_length in Hq as (l2 & l3 & -> & Hlen).
  exists (length (filter P l1)), (length (filter P l1) + S (length (filter P l2))).
  rewrite filter_app, filter_cons, decide_True by done.
  rewrite filter_app, filter_cons, decide_True by done.
  split_and!; [|  |lia].
  - by rewrite list_lookup_middle.
  - rewrite lookup_app_r by lia.
    replace (length (filter P l1) + S (length (filter P l2)) - length (filter P l1))
      with (S (length (filter P l2))) by lia.
    simpl. by rewrite list_lookup_middle.
Qed.

Lemma depends_on_count_pos g a b :
  wf g → depends_on g a b → 0 < DepGraph.dependency_count g.
Proof.
  intros Hwf (i & j & _ & _ & He).
  apply edge_stored in He; [|done].
  unfold DepGraph.dependency_count. rewrite (wf_num_deps g Hwf).
  assert (size (DepGraph._graph g) ≠ 0); [|lia].
  apply (map_size_ne_0_lookup_2 _ (i, j)). by eexists.
Qed.

Lemma generate_init_order_perm t spec :
  NoDup (map Field.name t) → generate t = Ok spec →
  FitSpecBase.init_order spec ≡ₚ map Field.name (init_fields t).
Proof.
  intros Hnd Hgen.
  destruct (generate_Ok_inv t spec Hnd Hgen)
    as (st & _ & Hinv & _ & _ & _ & _ & _ & _ & Hord).
  pose proof (constructible_wf _ (gi_graph _ _ _ Hinv)) as Hwf.
  destruct Hord as [(_ & -> & _)|(_ & Hcl & order & Hget & -> & _)].
  - by rewrite (gi_special _ _ _ Hinv).
  - destruct (get_init_order_ok _ Hwf Hcl) as (order' & idxs & Hget' & Hperm & _).
    assert (order' = order) as -> by congruence.
    rewrite Hperm, (gi_fields _ _ _ Hinv), (gi_special _ _ _ Hinv).
    unfold init_fields. by rewrite filter_names.
Qed.

Lemma generate_target_first t spec f tgt :
  NoDup (map Field.name t) → generate t = Ok spec →
  f ∈ init_fields t → Field.metadata f = Some (SameAsField tgt) →
  tgt ∈ map Field.name (init_fields t) →
  ∃ p q, FitSpecBase.init_order spec !! p = Some tgt ∧
         FitSpecBase.init_order spec !! q = Some (Field.name f) ∧ p < q.
Proof.
  intros Hnd Hgen Hf Hmeta Htgt.
  destruct (generate_Ok_inv t spec Hnd Hgen)
    as (st & _ & Hinv & _ & _ & _ & _ & _ & _ & Hord).
  pose proof (constructible_wf _ (gi_graph _ _ _ Hinv)) as Hwf.
  assert (Hdep : depends_on (depgraph st) (Field.name f) tgt).
  { apply (gi_deps _ _ _ Hinv). by exists f. }
  destruct Hord as [(Hzero & _)|(_ & Hcl & order & Hget & Hio & _)].
  { apply depends_on_count_pos in Hdep; [lia|done]. }
  destruct (get_init_order_ok _ Hwf Hcl)
    as (order' & idxs & Hget' & _ & Htopo & _).
  assert (order' = order) as -> by congruence.
  destruct (Htopo _ _ Hdep) as (p & q & Hp & Hq & Hlt).
  rewrite Hio. apply (filter_order _ order p q); [done|done|done| |].
  - rewrite (gi_special _ _ _ Hinv).
    apply list_elem_of_In, in_map, list_elem_of_In, Hf.
  - by rewrite (gi_special _ _ _ Hinv).
Qed.

(** C9, as the code has it.  For every dataclass (with pairwise distinct
    field names) for which [generate] succeeds: the numbers of fitting,
    const and same-as fields among the constructor-relevant fields add up
    to [special_param_count], which is the number of constructor-relevant
    fields; [init_order] is a rearrangement of the constructor-relevant
    fields; and every same-as field whose target is itself
    constructor-relevant comes strictly after its target in
    [init_order]. *)
Theorem generate_invariants (t : dataclass) (spec : FitSpecBase.t) :
  NoDup (map Field.name t) →
  generate t = Ok spec →
  length (FitSpecBase.fitting_params spec)
    + length (filter (fun f => is_const f = true) (init_fields t))
    + length (filter (fun f => is_same_as f = true) (init_fields t))
    = FitSpecBase.special_param_count spec ∧
  FitSpecBase.special_param_count spec = length (init_fields t) ∧
  FitSpecBase.init_order spec ≡ₚ map Field.name (init_fields t) ∧
  (∀ f tgt,
     f ∈ init_fields t → Field.metadata f = Some (SameAsField tgt) →
     tgt ∈ map Field.name (init_fields t) →
     ∃ p q, FitSpecBase.init_order spec !! p = Some tgt ∧
            FitSpecBase.init_order spec !! q = Some (Field.name f) ∧ p < q).
Proof.
  intros Hnd Hgen.
  pose proof (generate_init_order_perm t spec Hnd Hgen) as Hperm.
  destruct (generate_Ok_inv t spec Hnd Hgen)
    as (st & _ & Hinv & Hcount & Hfit & _ & _ & _ & _ & Hord).
  assert (Hlen : FitSpecBase.special_param_count spec = length (init_fields t)).
  { by rewrite Hcount, (gi_special _ _ _ Hinv), length_map. }
  split_and!; [|done|done|].
  - rewrite Hfit, (gi_fitting _ _ _ Hinv), length_map, Hlen.
    apply count_kinds.
  - intros f tgt. by apply generate_target_first.
Qed.

Lemma generate_invariants_witness :
  ∃ spec,
    generate [plain None "a"; regular (Some 1%float) "b";
              same_as "a" (Some 5%float) "c"; const 7 "d"] = Ok spec ∧
    FitSpecBase.special_param_count spec = 4 ∧
    length (FitSpecBase.fitting_params spec) + 1 + 1
    = FitSpecBase.special_param_count spec ∧
    FitSpecBase.init_order spec ≡ₚ ["a"; "b"; "c"; "d"] ∧
    ∃ p q, FitSpecBase.init_order spec !! p = Some "a" ∧
           FitSpecBase.init_order spec !! q = Some "c" ∧ p < q.
Proof.
  set (t := [plain None "a"; regular (Some 1%float) "b";
             same_as "a" (Some 5%float) "c"; const 7 "d"]).
  destruct (generate t) as [spec| |] eqn:Hgen; [|by vm_compute in Hgen..].
  exists spec. split; [done|].
  destruct (generate_invariants t spec) as (H1 & H2 & H3 & H4); [|done|].
  { solve_NoDup. }
  split_and!; [done|done|done|].
  apply (H4 (same_as "a" (Some 5%float) "c") "a"); [|done|].
  - solve_elem_of.
  - solve_elem_of.
Defined.

(** C9 as stated fails when the target of a same-as field is not
    constructor-relevant ([init=False]): generation succeeds and the
    target is not in [init_order] at all. *)
Lemma generate_invariants_counterexample :
  let t := [Field.mk "x" false (Some 1%float) None None; same_as "x" None "a"] in
  ∃ spec,
    NoDup (map Field.name t) ∧
    generate t = Ok spec ∧
    same_as "x" None "a" ∈ init_fields t ∧
    FitSpecBase.init_order spec = ["a"] ∧
    ¬ ∃ p q, FitSpecBase.init_order spec !! p = Some "x" ∧
             FitSpecBase.init_order spec !! q = Some "a" ∧ p < q.
Proof.
  intros t.
  destruct (generate t) as [spec| |] eqn:Hgen; [|by vm_compute in Hgen..].
  exists spec.
  assert (Hio : FitSpecBase.init_order spec = ["a"]).
  { vm_compute in Hgen. by injection Hgen as <-. }
  split_and!; [| done | | done |].
  - solve_NoDup.
  - solve_elem_of.
  - rewrite Hio. intros (p & q & Hp & _). by destruct p.
Qed.

Lemma chain_from_mono {B} (R R' : B → B → Prop) (l : list B) : ∀ x,
  (∀ x y, R x y → R' x y) → chain_from R x l → chain_from R' x l.
Proof.
  induction l as [|y l IH]; intros x Hsub; simpl; [done|].
  intros [Hxy Hl]. split; [by apply Hsub|by apply IH].
Qed.

Lemma directed_cycle_mono {B} (R R' : B → B → Prop) (c : list B) :
  (∀ x y, R x y → R' x y) → directed_cycle R c → directed_cycle R' c.
Proof.
  intros Hsub. destruct c as [|x l]; [done|]. simpl.
  intros [Hnd Hch]. split; [done|]. by eapply chain_from_mono.
Qed.

Lemma directed_cycle_edge {B} (R : B → B → Prop) (c : list B) :
  directed_cycle R c → ∃ x y, R x y.
Proof.
  destruct c as [|x l]; [done|]. intros [_ Hch].
  destruct l as [|y l]; simpl in Hch.
  - exists x, x. tauto.
  - exists x, y. tauto.
Qed.

Lemma gen_step_Raise t seen st i fld e :
  gen_inv t seen st →
  Field.name fld ∈ map Field.name t →
  (∀ tgt, Field.metadata fld = Some (SameAsField tgt) →
          tgt ≠ Field.name fld ∧ tgt ∈ map Field.name t) →
  gen_step st i fld = Raise e →
  is_CircularDependency e = true.
Proof.
  intros Hinv Hname Hvalid. unfold gen_step, get_special_fitting_field.
  destruct (Field.metadata fld) as [[mn mx|v|tgt|]|]; try done.
  destruct (Hvalid tgt eq_refl) as [Hne Htgt].
  destruct (DepGraph.add_dependency _ _ _) as [[b| |] g'] eqn:Hadd; try done.
  intros [= <-].
  pose proof (constructible_wf _ (gi_graph _ _ _ Hinv)) as Hwf.
  eapply add_dependency_Raise; [done|done| | |].
  - intros Heq. by apply Hne.
  - by rewrite (gi_fields _ _ _ Hinv).
  - by rewrite (gi_fields _ _ _ Hinv).
Qed.

Lemma gen_loop_Raise t rest : ∀ seen st i e,
  gen_inv t seen st →
  NoDup (map Field.name (seen ++ rest)) →
  (∀ f, f ∈ rest →
     Field.name f ∈ map Field.name t ∧
     ∀ tgt, Field.metadata f = Some (SameAsField tgt) →
            tgt ≠ Field.name f ∧ tgt ∈ map Field.name t) →
  gen_loop st i rest = Raise e →
  is_CircularDependency e = true.
Proof.
  induction rest as [|fld rest IH]; intros seen st i e Hinv Hnd Hvalid;
    simpl; [done|].
  destruct (Hvalid fld) as [Hname Htgt]; [by left|].
  destruct (gen_step st i fld) as [st1|e1|] eqn:Hstep; simpl.
  - replace (seen ++ fld :: rest) with ((seen ++ [fld]) ++ rest) in Hnd
      by (by rewrite <- app_assoc).
    apply (IH (seen ++ [fld])); [|done|].
    + eapply gen_inv_step; [done| |done].
      rewrite map_app in Hnd. by apply NoDup_app in Hnd as (Hnd & _).
    + intros f Hf. apply Hvalid. by right.
  - intros [= <-]. by eapply gen_step_Raise.
  - done.
Qed.

(** C5, as the code has it.  For every dataclass (with pairwise distinct
    field names) whose same-as declarations among the constructor-relevant
    fields form a directed cycle of length at least 2, [generate] raises
    and returns no specification; the exception is one of the circular
    dependency errors whenever every same-as field names another field of
    the dataclass. *)
Theorem generate_cycle_fails (t : dataclass) (c : list string) :
  NoDup (map Field.name t) →
  2 ≤ length c →
  directed_cycle (same_as_decl (init_fields t)) c →
  ∃ e, generate t = Raise e ∧
       ((∀ f tgt, f ∈ init_fields t →
                  Field.metadata f = Some (SameAsField tgt) →
                  tgt ≠ Field.name f ∧ tgt ∈ map Field.name t) →
        is_CircularDependency e = true).
Proof.
  intros Hnd Hlen Hcyc.
  assert (Hnd' : NoDup (map Field.name (init_fields t)))
    by (by apply NoDup_map_filter).
  unfold generate. cbv zeta.
  destruct (gen_loop (gen_state_init t) 0 (init_fields t)) as [st|e|] eqn:Hloop.
  - assert (Hinv : gen_inv t (init_fields t) st).
    { by apply (gen_loop_inv t (init_fields t) [] _ 0 st (gen_inv_init t)). }
    pose proof (constructible_wf _ (gi_graph _ _ _ Hinv)) as Hwf.
    assert (Hcyc' : directed_cycle (depends_on (depgraph st)) c).
    { eapply directed_cycle_mono; [|done]. intros x y. apply (gi_deps _ _ _ Hinv). }
    assert (Hcl : DepGraph.has_closed_cycles (depgraph st) = true).
    { apply has_closed_cycles_names; [done|]. by exists c. }
    assert (Hpos : 0 < DepGraph.dependency_count (depgraph st)).
    { destruct (directed_cycle_edge _ _ Hcyc') as (x & y & Hxy).
      by eapply depends_on_count_pos. }
    exists (ValueError CircularDependencies). split; [|done].
    rewrite bind_Ok_l.
    rewrite (gi_resolvers _ _ _ Hinv), (gi_special _ _ _ Hinv).
    rewrite !length_map, Nat.eqb_refl. cbn [negb].
    apply Nat.ltb_lt in Hpos. rewrite Hpos, Hcl. done.
  - exists e. split; [done|]. intros Hvalid.
    apply (gen_loop_Raise t (init_fields t) [] _ 0 e (gen_inv_init t));
      [done| |done].
    intros f Hf. split.
    + apply list_elem_of_In, in_map, list_elem_of_In.
      apply list_elem_of_filter in Hf. tauto.
    + intros tgt. by apply Hvalid.
  - by apply gen_loop_no_diverge in Hloop.
Qed.

Lemma generate_cycle_fails_witness :
  ∃ e, generate [same_as "b" None "a"; same_as "c" None "b";
                 same_as "a" None "c"] = Raise e ∧
       is_CircularDependency e = true.
Proof.
  set (t := [same_as "b" None "a"; same_as "c" None "b"; same_as "a" None "c"]).
  destruct (generate_cycle_fails t ["a"; "b"; "c"]) as (e & He & Hcirc).
  - solve_NoDup.
  - simpl. lia.
  - split.
    + solve_NoDup.
    + simpl. split_and!; [| | |done].
      * exists (same_as "b" None "a"). split; [|done].
        solve_elem_of.
      * exists (same_as "c" None "b"). split; [|done].
        solve_elem_of.
      * exists (same_as "a" None "c"). split; [|done].
        solve_elem_of.
  - exists e. split; [done|]. apply Hcirc.
    intros f tgt Hf Hmeta. apply list_elem_of_In in Hf. simpl in Hf.
    destruct Hf as [<-|[<-|[<-|[]]]]; injection Hmeta as <-;
      (split; [discriminate|apply list_elem_of_In; simpl; auto]).
Defined.

(** C5 as stated fails when an earlier field is declared the same as
    itself: the two-field cycle is there, and generation raises the
    self-dependency error (InvalidDependency), not a circular dependency
    error. *)
Lemma generate_cycle_fails_counterexample :
  let t := [same_as "z" None "z"; same_as "b" None "a"; same_as "a" None "b"] in
  NoDup (map Field.name t) ∧
  directed_cycle (same_as_decl (init_fields t)) ["a"; "b"] ∧
  generate t = Raise (ValueError (SelfDependency "z")) ∧
  is_CircularDependency (ValueError (SelfDependency "z")) = false.
Proof.
  intros t. split_and!; [| |done|done].
  - solve_NoDup.
  - split.
    + solve_NoDup.
    + simpl. split_and!; [| |done].
      * exists (same_as "b" None "a"). split; [|done].
        solve_elem_of.
      * exists (same_as "a" None "b"). split; [|done].
        solve_elem_of.
Qed.

(** ** From arrays to instances *)

Lemma names_inj (t : list Field.t) f1 f2 :
  NoDup (map Field.name t) → f1 ∈ t → f2 ∈ t →
  Field.name f1 = Field.name f2 → f1 = f2.
Proof.
  induction t as [|f t IH]; intros Hnd H1 H2 Heq.
  - by apply elem_of_nil in H1.
  - simpl in Hnd. apply NoDup_cons in Hnd as [Hf Hnd].
    assert (Hin : ∀ x, x ∈ t → Field.name x ∈ map Field.name t).
    { intros x Hx. apply list_elem_of_In, in_map, list_elem_of_In, Hx. }
    apply elem_of_cons in H1 as [->|H1], H2 as [->|H2]; [done| | |by apply IH].
    + destruct Hf. rewrite Heq. by apply Hin.
    + destruct Hf. rewrite <- Heq. by apply Hin.
Qed.

Lemma read_fields_Ok (fps : list string) : ∀ array i kwargs,
  i + length fps ≤ length array →
  ∃ kw, read_fields array i fps kwargs = Ok kw ∧
        ∀ k, is_Some (kw !! k) ↔ k ∈ fps ∨ is_Some (kwargs !! k).
Proof.
  induction fps as [|fp fps IH]; intros array i kwargs Hlen; simpl.
  - exists kwargs. split; [done|]. intros k. split; [by right|].
    intros [H|H]; [by apply elem_of_nil in H|done].
  - simpl in Hlen.
    destruct (lookup_lt_is_Some_2 array i) as [v Hv]; [lia|].
    unfold getitem. rewrite Hv. rewrite bind_Ok_l.
    destruct (IH array (S i) (<[fp := v]> kwargs)) as (kw & Hkw & Hdom); [lia|].
    exists kw. split; [done|]. intros k. rewrite Hdom, elem_of_cons.
    destruct (decide (fp = k)) as [->|Hne].
    + rewrite lookup_insert_eq.
      split; [intros _; left; by left|intros _; right; by eexists].
    + rewrite lookup_insert_ne by done. split.
      * intros [H|H]; [left; by right|by right].
      * intros [[H|H]|H]; [congruence|by left|by right].
Qed.

Lemma resolve_dependent_KeyError (resolvers : list DependentResolver.t) :
  ∀ kwargs r,
  r ∈ resolvers →
  kwargs !! DependentResolver.name r = None →
  (∀ r', r' ∈ resolvers →
         DependentResolver.target r' ≠ DependentResolver.name r) →
  ∃ k, resolve_dependent resolvers kwargs = Raise (KeyError k).
Proof.
  induction resolvers as [|r0 resolvers IH]; intros kwargs r Hin Hnone Htgt.
  - by apply elem_of_nil in Hin.
  - simpl. unfold DependentResolver.get, dict_get.
    destruct (kwargs !! DependentResolver.name r0) as [v|] eqn:Hv.
    + rewrite bind_Ok_l.
      apply elem_of_cons in Hin as [->|Hin]; [congruence|].
      apply (IH _ r); [done| |].
      * rewrite lookup_insert_ne; [done|]. apply Htgt. by left.
      * intros r' Hr'. apply Htgt. by right.
    + by eexists.
Qed.

(** C10.  For every dataclass (with pairwise distinct field names) for
    which [generate] succeeds and that has a constructor-relevant same-as
    field whose target is a const field, [array_to_instance] on an array
    of the right length raises [KeyError]: the mapping holds the fitting
    parameters and the same-as fields resolved so far, never a const
    field. *)
Theorem array_to_instance_const_target
    (t : dataclass) (spec : FitSpecBase.t) (f c : Field.t) (array : list float) :
  NoDup (map Field.name t) →
  generate t = Ok spec →
  f ∈ init_fields t →
  Field.metadata f = Some (SameAsField (Field.name c)) →
  c ∈ t → is_const c = true →
  length array = FitSpecBase.fitting_param_count spec →
  ∃ k, array_to_instance (pin spec t) array = Raise (KeyError k).
Proof.
  intros Hnd Hgen Hf Hmeta Hc Hconst Hlen.
  pose proof (generate_init_order_perm t spec Hnd Hgen) as Hperm.
  destruct (generate_Ok_inv t spec Hnd Hgen)
    as (st & _ & Hinv & _ & Hfit & Hfitn & _ & _ & _ & Hord).
  pose proof (constructible_wf _ (gi_graph _ _ _ Hinv)) as Hwf.
  assert (Hsub : ∀ x, x ∈ init_fields t → x ∈ t).
  { intros x Hx. apply list_elem_of_filter in Hx. tauto. }
  assert (Hdecl : same_as_decl (init_fields t) (Field.name f) (Field.name c))
    by (by exists f).
  assert (Hdep : depends_on (depgraph st) (Field.name f) (Field.name c))
    by (by apply (gi_deps _ _ _ Hinv)).
  destruct Hord as [(Hzero & _)|(_ & _ & order & _ & _ & Hres)].
  { apply depends_on_count_pos in Hdep; [lia|done]. }
  set (r := DependentResolver.mk (Field.name f) (Field.name c)).
  assert (Hr : r ∈ FitSpecBase.dep_resolvers spec).
  { rewrite Hres. unfold get_dep_resolvers. apply list_elem_of_omap.
    exists (Field.name f). split.
    - rewrite Hperm. apply list_elem_of_In, in_map, list_elem_of_In, Hf.
    - apply (gi_dep_map _ _ _ Hinv). by exists (Field.name c). }
  unfold array_to_instance. cbn [pin FitSpec.base FitSpec.clss].
  rewrite Hlen, Nat.eqb_refl. cbn [negb].
  destruct (read_fields_Ok (FitSpecBase.fitting_params spec) array 0 ∅)
    as (kw & Hkw & Hdom).
  { rewrite Hfitn, <- Hfit in Hlen. simpl. lia. }
  rewrite Hkw, bind_Ok_l.
  destruct (resolve_dependent_KeyError (FitSpecBase.dep_resolvers spec) kw r)
    as [k Hk]; [done| | |].
  - simpl. destruct (kw !! Field.name c) as [v|] eqn:Hv; [|done]. exfalso.
    destruct (proj1 (Hdom (Field.name c))) as [Hin|Hin]; [by eexists| |].
    + rewrite Hfit, (gi_fitting _ _ _ Hinv) in Hin.
      apply list_elem_of_In, in_map_iff in Hin as (x & Hname & Hx).
      apply list_elem_of_In, list_elem_of_filter in Hx as [Hxfit Hx].
      assert (x = c) as -> by (apply (names_inj t); auto).
      unfold is_fitting, is_const in *.
      destruct (Field.metadata c) as [[| | |]|]; discriminate.
    + rewrite lookup_empty in Hin. by destruct Hin.
  - intros r' Hr'. simpl. rewrite Hres in Hr'. unfold get_dep_resolvers in Hr'.
    apply list_elem_of_omap in Hr' as (a & _ & Ha).
    apply (gi_dep_map _ _ _ Hinv) in Ha as (b & -> & x & Hx & Hname & Hxm).
    simpl. intros Heq. subst a.
    assert (x = c) as -> by (apply (names_inj t); auto).
    unfold is_const in Hconst. rewrite Hxm in Hconst. discriminate.
  - exists k. by rewrite Hk.
Qed.

Lemma array_to_instance_const_target_witness :
  ∃ spec k,
    get_fit_spec [same_as "c" None "b"; const 7 "c"] = Ok spec ∧
    array_to_instance spec [] = Raise (KeyError k).
Proof.
  set (t := [same_as "c" None "b"; const 7 "c"]).
  destruct (generate t) as [spec| |] eqn:Hgen; [|by vm_compute in Hgen..].
  destruct (array_to_instance_const_target t spec
              (same_as "c" None "b") (const 7 "c") []) as [k Hk].
  - solve_NoDup.
  - done.
  - solve_elem_of.
  - done.
  - solve_elem_of.
  - done.
  - vm_compute in Hgen. by injection Hgen as <-.
  - exists (pin spec t), k. split; [|exact Hk].
    unfold get_fit_spec. fold t. by rewrite Hgen.
Defined.

(** ** What the conversions do once the mapping is complete *)

(** The number of passes that [get_init_order] allows for is never the
    reason for [Diverge]: any fuel that covers the indices still in the
    tree gives the same outcome. *)
Lemma init_order_loop_fuel g fuel1 : ∀ fuel2 tree resolved nnum,
  length tree ≤ fuel1 → length tree ≤ fuel2 →
  DepGraph.init_order_loop fuel1 g tree resolved nnum
  = DepGraph.init_order_loop fuel2 g tree resolved nnum.
Proof.
  induction fuel1 as [|fuel1 IH]; intros fuel2 tree resolved nnum H1 H2.
  - destruct tree; [|simpl in H1; lia]. by destruct fuel2.
  - destruct tree as [|x tree]; [by destruct fuel2|].
    destruct fuel2 as [|fuel2]; [simpl in H2; lia|].
    cbn [DepGraph.init_order_loop].
    destruct (List.find _ _) as [idx|] eqn:Hfind; [|done].
    apply find_some in Hfind as [Hin _]. apply list_elem_of_In in Hin.
    assert (length (DepGraph.set_remove idx (x :: tree)) < length (x :: tree)).
    { unfold DepGraph.set_remove.
      apply (length_filter_lt _ _ idx); [done|]. intros H. by apply H. }
    apply IH; lia.
Qed.

Lemma init_attrs_lookup kwargs (fs : list Field.t) : ∀ self inst,
  NoDup (map Field.name fs) →
  init_attrs kwargs fs self = Ok inst →
  (∀ k, k ∉ map Field.name fs → inst !! k = self !! k) ∧
  ∀ f, f ∈ fs →
       ∃ v, init_arg kwargs f = Ok v ∧
            inst !! Field.name f
            = match v with Some x => Some x | None => self !! Field.name f end.
Proof.
  induction fs as [|f0 fs IH]; intros self inst Hnd Hinit.
  - simpl in Hinit. injection Hinit as <-. split; [done|].
    intros f Hf. by apply elem_of_nil in Hf.
  - simpl in Hinit, Hnd. apply NoDup_cons in Hnd as [Hf0 Hnd].
    apply bind_Ok in Hinit as (v0 & Harg & Hinit).
    destruct (IH _ _ Hnd Hinit) as [Hother Hfs]. split.
    + intros k Hk. simpl in Hk. apply not_elem_of_cons in Hk as [Hne Hk].
      rewrite (Hother k Hk). destruct v0; [|done]. by rewrite lookup_insert_ne.
    + intros f Hf. apply elem_of_cons in Hf as [->|Hf].
      * exists v0. split; [done|]. rewrite (Hother _ Hf0).
        destruct v0; [|done]. by rewrite lookup_insert_eq.
      * destruct (Hfs f Hf) as (v & Hv & Hl). exists v. split; [done|].
        rewrite Hl. destruct v; [done|].
        destruct v0; [|done]. rewrite lookup_insert_ne; [done|].
        intros Heq. apply Hf0. rewrite Heq.
        apply list_elem_of_In, in_map, list_elem_of_In, Hf.
Qed.

Lemma init_attrs_Ok kwargs (fs : list Field.t) : ∀ self,
  (∀ f, f ∈ fs → ∃ v, init_arg kwargs f = Ok v) →
  ∃ inst, init_attrs kwargs fs self = Ok inst.
Proof.
  induction fs as [|f0 fs IH]; intros self Hargs; simpl.
  - by exists self.
  - destruct (Hargs f0) as [v0 ->]; [by left|]. rewrite bind_Ok_l.
    apply IH. intros f Hf. apply Hargs. by right.
Qed.

(** The constructor succeeds when the keywords are constructor-relevant
    fields and every constructor-relevant field has a keyword or a
    default; every such field then holds its keyword, or else its
    default. *)
Lemma construct_Ok (t : dataclass) (kwargs : gmap string float) :
  NoDup (map Field.name t) →
  (∀ k, is_Some (kwargs !! k) → k ∈ map Field.name (init_fields t)) →
  (∀ f, f ∈ init_fields t →
        is_Some (kwargs !! Field.name f) ∨ is_Some (Field.default f)) →
  ∃ inst, construct t kwargs = Ok inst ∧
          ∀ f, f ∈ init_fields t →
               inst !! Field.name f
               = match kwargs !! Field.name f with
                 | Some v => Some v
                 | None => Field.default f
                 end.
Proof.
  intros Hnd Hdom Hargs. unfold construct. fold (init_fields t).
  rewrite bool_decide_true.
  2:{ intros k Hk. apply elem_of_dom in Hk. apply elem_of_list_to_set.
      by apply Hdom. }
  assert (Harg : ∀ f, f ∈ t → ∃ v, init_arg kwargs f = Ok v).
  { intros f Hf. unfold init_arg.
    destruct (Field.init f) eqn:Hinit; [|by eexists].
    destruct (Hargs f) as [[v Hv]|[d Hd]].
    - apply list_elem_of_filter. done.
    - rewrite Hv. by eexists.
    - rewrite Hd. destruct (kwargs !! Field.name f); by eexists. }
  destruct (init_attrs_Ok kwargs t ∅ Harg) as [inst Hinst].
  exists inst. split; [done|].
  intros f Hf. apply list_elem_of_filter in Hf as [Hinit Hf].
  destruct (init_attrs_lookup kwargs t ∅ inst Hnd Hinst) as [_ Hl].
  destruct (Hl f Hf) as (v & Hv & ->).
  unfold init_arg in Hv. rewrite Hinit in Hv.
  destruct (kwargs !! Field.name f) as [x|] eqn:Hkw; [by injection Hv as <-|].
  destruct (Field.default f) as [d|] eqn:Hd; [by injection Hv as <-|].
  destruct (Hargs f) as [[? H]|[? H]]; [|congruence..].
  apply list_elem_of_filter. done.
Qed.

Lemma write_fields_Ok inst (fps : list string) : ∀ i out,
  i + length fps ≤ length out →
  (∀ k, k ∈ fps → is_Some (inst !! k)) →
  ∃ arr, write_fields inst i fps out = Ok arr ∧
         length arr = length out ∧
         (∀ j k, fps !! j = Some k → arr !! (i + j) = inst !! k) ∧
         (∀ p, p < i → arr !! p = out !! p).
Proof.
  induction fps as [|fp fps IH]; intros i out Hlen Hattr; simpl.
  - exists out. split_and!; first [done | by intros ? ? ?].
  - simpl in Hlen. destruct (Hattr fp) as [v Hv]; [by left|].
    unfold getattr. rewrite Hv, bind_Ok_l. unfold setitem.
    destruct (Nat.ltb_spec i (length out)); [|lia]. rewrite bind_Ok_l.
    destruct (IH (S i) (<[i := v]> out)) as (arr & -> & Hl & Hval & Hkeep).
    { rewrite length_insert. lia. }
    { intros k Hk. apply Hattr. by right. }
    exists arr. rewrite length_insert in Hl. split_and!; [done|done| |].
    + intros [|j] k Hj; simpl in Hj.
      * injection Hj as <-. rewrite Nat.add_0_r, Hkeep by lia.
        by rewrite list_lookup_insert_eq.
      * replace (i + S j) with (S i + j) by lia. by apply Hval.
    + intros p Hp. rewrite Hkeep by lia. apply list_lookup_insert_ne. lia.
Qed.

Lemma read_fields_lookup (fps : list string) : ∀ array i kwargs,
  NoDup fps → i + length fps ≤ length array →
  ∃ kw, read_fields array i fps kwargs = Ok kw ∧
        (∀ j k, fps !! j = Some k → kw !! k = array !! (i + j)) ∧
        (∀ k, k ∉ fps → kw !! k = kwargs !! k).
Proof.
  induction fps as [|fp fps IH]; intros array i kwargs Hnd Hlen; simpl.
  - exists kwargs. split_and!; first [done | by intros ? ? ?].
  - simpl in Hlen. apply NoDup_cons in Hnd as [Hfp Hnd].
    destruct (lookup_lt_is_Some_2 array i) as [v Hv]; [lia|].
    unfold getitem. rewrite Hv, bind_Ok_l.
    destruct (IH array (S i) (<[fp := v]> kwargs)) as (kw & -> & Hval & Hkeep);
      [done|lia|].
    exists kw. split_and!; [done| |].
    + intros [|j] k Hj; simpl in Hj.
      * injection Hj as <-. rewrite Nat.add_0_r, Hkeep by done.
        by rewrite lookup_insert_eq.
      * replace (i + S j) with (S i + j) by lia. by apply Hval.
    + intros k Hk. apply not_elem_of_cons in Hk as [Hne Hk].
      rewrite Hkeep by done. by rewrite lookup_insert_ne.
Qed.

Lemma omap_split {B C} (f : B → option C) (o : list B) : ∀ l1 r l2,
  omap f o = l1 ++ r :: l2 →
  ∃ o1 a o2, o = o1 ++ a :: o2 ∧ f a = Some r ∧
             omap f o1 = l1 ∧ omap f o2 = l2.
Proof.
  induction o as [|x o IH]; intros l1 r l2 Heq.
  - by destruct l1.
  - simpl in Heq. destruct (f x) as [y|] eqn:Hfx.
    + destruct l1 as [|z l1]; simpl in Heq.
      * injection Heq as -> <-. exists [], x, o. by rewrite Hfx.
      * injection Heq as -> Heq.
        destruct (IH _ _ _ Heq) as (o1 & a & o2 & -> & Ha & <- & <-).
        exists (x :: o1), a, o2. simpl. by rewrite Hfx.
    + destruct (IH _ _ _ Heq) as (o1 & a & o2 & -> & Ha & <- & <-).
      exists (x :: o1), a, o2. simpl. by rewrite Hfx.
Qed.

(** The dependent resolvers succeed when every resolver writes a fresh
    key and reads a key that is in the mapping or was written by an
    earlier resolver; the mapping only grows. *)
Lemma resolve_dependent_Ok (resolvers : list DependentResolver.t) :
  ∀ kwargs : gmap string float,
  NoDup (map DependentResolver.target resolvers) →
  (∀ r, r ∈ resolvers → kwargs !! DependentResolver.target r = None) →
  (∀ l1 r l2, resolvers = l1 ++ r :: l2 →
     is_Some (kwargs !! DependentResolver.name r) ∨
     DependentResolver.name r ∈ map DependentResolver.target l1) →
  ∃ kw, resolve_dependent resolvers kwargs = Ok kw ∧
        kwargs ⊆ kw ∧
        (∀ r, r ∈ resolvers →
           ∃ v, kw !! DependentResolver.target r = Some v ∧
                kw !! DependentResolver.name r = Some v) ∧
        (∀ k, is_Some (kw !! k) →
              is_Some (kwargs !! k) ∨
              k ∈ map DependentResolver.target resolvers).
Proof.
  induction resolvers as [|r0 rs IH]; intros kwargs Hnd Hfresh Hread.
  - exists kwargs. split_and!; [done|done| |by left].
    intros r Hr. by apply elem_of_nil in Hr.
  - simpl in Hnd. apply NoDup_cons in Hnd as [Hr0 Hnd]. simpl.
    destruct (Hread [] r0 rs eq_refl) as [[v Hv]|Hin];
      [|by apply elem_of_nil in Hin].
    unfold DependentResolver.get, dict_get. rewrite Hv, bind_Ok_l.
    assert (Hsub : kwargs ⊆ <[DependentResolver.target r0 := v]> kwargs).
    { apply insert_subseteq, Hfresh. by left. }
    destruct (IH (<[DependentResolver.target r0 := v]> kwargs))
      as (kw & -> & Hkw & Heq & Hdom); [done| | |].
    + intros r Hr. rewrite lookup_insert_ne; [apply Hfresh; by right|].
      intros Heq. apply Hr0. rewrite Heq.
      apply list_elem_of_In, in_map, list_elem_of_In, Hr.
    + intros l1 r l2 ->.
      destruct (Hread (r0 :: l1) r l2 eq_refl) as [[x Hx]|Hin].
      * left. exists x. by apply (lookup_weaken _ _ _ _ Hx).
      * simpl in Hin. apply elem_of_cons in Hin as [->|Hin]; [|by right].
        left. rewrite lookup_insert_eq. by eexists.
    + exists kw. split_and!; [done|by etrans| |].
      * intros r Hr. apply elem_of_cons in Hr as [->|Hr]; [|by apply Heq].
        exists v. split.
        -- apply (lookup_weaken _ _ _ _ (lookup_insert_eq _ _ _) Hkw).
        -- apply (lookup_weaken _ _ _ _ Hv). by etrans.
      * intros k Hk. destruct (Hdom k Hk) as [H|H].
        -- destruct (decide (DependentResolver.target r0 = k)) as [<-|Hne].
           ++ right. simpl. by left.
           ++ left. by rewrite lookup_insert_ne in H.
        -- right. simpl. by right.
Qed.

Lemma NoDup_omap_target (f : string → option DependentResolver.t)
    (o : list string) :
  (∀ a r, f a = Some r → DependentResolver.target r = a) →
  NoDup o → NoDup (map DependentResolver.target (omap f o)).
Proof.
  intros Hf. induction o as [|x o IH]; intros Hnd; [constructor|].
  apply NoDup_cons in Hnd as [Hx Hnd]. simpl.
  destruct (f x) as [y|] eqn:Hfx; [|by apply IH].
  simpl. apply NoDup_cons. split; [|by apply IH].
  rewrite (Hf _ _ Hfx). intros Hin. apply Hx.
  apply list_elem_of_In, in_map_iff in Hin as (r & Hr & Hin).
  apply list_elem_of_In, list_elem_of_omap in Hin as (a & Ha & Hfa).
  rewrite <- Hr, (Hf _ _ Hfa). done.
Qed.

(** The dependent resolvers of a generated specification: one per
    same-as field, each after the resolver of its target when the target
    is a same-as field too. *)
Lemma generate_dep_resolvers t spec :
  NoDup (map Field.name t) → generate t = Ok spec →
  (∀ r, r ∈ FitSpecBase.dep_resolvers spec ↔
        same_as_decl (init_fields t)
          (DependentResolver.target r) (DependentResolver.name r)) ∧
  NoDup (map DependentResolver.target (FitSpecBase.dep_resolvers spec)) ∧
  (∀ l1 r l2 f',
     FitSpecBase.dep_resolvers spec = l1 ++ r :: l2 →
     f' ∈ init_fields t → Field.name f' = DependentResolver.name r →
     is_same_as f' = true →
     DependentResolver.name r ∈ map DependentResolver.target l1).
Proof.
  intros Hnd Hgen.
  pose proof (generate_init_order_perm t spec Hnd Hgen) as Hperm.
  destruct (generate_Ok_inv t spec Hnd Hgen)
    as (st & _ & Hinv & _ & _ & _ & _ & _ & _ & Hord).
  pose proof (constructible_wf _ (gi_graph _ _ _ Hinv)) as Hwf.
  assert (Hndo : NoDup (FitSpecBase.init_order spec)).
  { rewrite Hperm. unfold init_fields. by apply NoDup_map_filter. }
  assert (Hmap : ∀ a r, dep_resolver_map st !! a = Some r ↔
                        DependentResolver.target r = a ∧
                        same_as_decl (init_fields t) a (DependentResolver.name r)).
  { intros a r. rewrite (gi_dep_map _ _ _ Hinv). split.
    - by intros (b & -> & Hd).
    - intros [<- Hd]. exists (DependentResolver.name r). by destruct r. }
  destruct Hord as [(Hzero & _ & ->)|(_ & _ & order & _ & _ & ->)].
  - split_and!.
    + intros r. split; [intros H; by apply elem_of_nil in H|].
      intros Hd. apply (gi_deps _ _ _ Hinv) in Hd.
      apply depends_on_count_pos in Hd; [lia|done].
    + constructor.
    + intros l1 r l2 f' Heq. by destruct l1.
  - unfold get_dep_resolvers. split_and!.
    + intros r. rewrite list_elem_of_omap. split.
      * intros (a & _ & Ha). apply Hmap in Ha as [<- Hd]. done.
      * intros Hd. exists (DependentResolver.target r). split; [|by apply Hmap].
        rewrite Hperm. destruct Hd as (f & Hf & <- & _).
        apply list_elem_of_In, in_map, list_elem_of_In, Hf.
    + apply NoDup_omap_target; [|done]. intros a r Ha.
      by apply Hmap in Ha as [Ha _].
    + intros l1 r l2 f' Heq Hf' Hname Hsame.
      apply omap_split in Heq as (o1 & a & o2 & Ho & Ha & <- & _).
      apply Hmap in Ha as [<- (f & Hf & Hfn & Hfm)].
      assert (Htgt : DependentResolver.name r ∈ map Field.name (init_fields t)).
      { rewrite <- Hname. apply list_elem_of_In, in_map, list_elem_of_In, Hf'. }
      destruct (generate_target_first t spec f _ Hnd Hgen Hf Hfm Htgt)
        as (p & q & Hp & Hq & Hlt).
      rewrite Hfn, Ho in Hq. rewrite Ho in Hp.
      assert (q = length o1) as ->.
      { rewrite Ho in Hndo. apply (NoDup_lookup _ _ _ _ Hndo Hq).
        by apply list_lookup_middle. }
      rewrite lookup_app_l in Hp by done.
      apply list_elem_of_lookup_2 in Hp.
      unfold is_same_as in Hsame.
      destruct (Field.metadata f') as [[| |b'|]|] eqn:Hm'; try done.
      apply list_elem_of_In, in_map_iff.
      exists (DependentResolver.mk (DependentResolver.name r) b').
      split; [done|]. apply list_elem_of_In, list_elem_of_omap.
      exists (DependentResolver.name r). split; [done|].
      apply Hmap. split; [done|]. by exists f'.
Qed.

Lemma init_names_inj (t : dataclass) f1 f2 :
  NoDup (map Field.name t) → f1 ∈ init_fields t → f2 ∈ init_fields t →
  Field.name f1 = Field.name f2 → f1 = f2.
Proof.
  intros Hnd H1 H2. apply (names_inj t); [done| |].
  - apply list_elem_of_filter in H1. tauto.
  - apply list_elem_of_filter in H2. tauto.
Qed.

Lemma fitting_name_inv (fs : list Field.t) k :
  k ∈ map Field.name (filter (fun f => is_fitting f = true) fs) →
  ∃ f, f ∈ fs ∧ Field.name f = k ∧ is_fitting f = true.
Proof.
  intros Hk. apply list_elem_of_In, in_map_iff in Hk as (f & Hname & Hf).
  apply list_elem_of_In, list_elem_of_filter in Hf as [Hfit Hf]. by exists f.
Qed.

Lemma fitting_name_intro (fs : list Field.t) f :
  f ∈ fs → is_fitting f = true →
  Field.name f ∈ map Field.name (filter (fun f => is_fitting f = true) fs).
Proof.
  intros Hf Hfit. apply list_elem_of_In, in_map, list_elem_of_In.
  by apply list_elem_of_filter.
Qed.

(** The round trip through the array, where the code supports it: when
    every same-as field names a constructor-relevant field that is not a
    const field (and const fields carry their value as default, as
    [const] builds them), writing an instance to an array of the right
    length and reading it back gives an instance with the same fitting
    parameters, every same-as field equal to its target and every const
    field equal to its value. *)
Lemma round_trip_fitting_targets
    (t : dataclass) (spec : FitSpecBase.t) (inst : instance) (out : list float) :
  NoDup (map Field.name t) →
  generate t = Ok spec →
  (∀ f v, f ∈ init_fields t → Field.metadata f = Some (ConstField v) →
          Field.default f = Some v) →
  (∀ f tgt, f ∈ init_fields t → Field.metadata f = Some (SameAsField tgt) →
            ∃ f', f' ∈ init_fields t ∧ Field.name f' = tgt ∧ is_const f' = false) →
  (∀ k, k ∈ FitSpecBase.fitting_params spec → is_Some (inst !! k)) →
  length out = FitSpecBase.fitting_param_count spec →
  ∃ arr inst',
    instance_to_array (pin spec t) inst out = Ok arr ∧
    array_to_instance (pin spec t) arr = Ok inst' ∧
    (∀ k, k ∈ FitSpecBase.fitting_params spec → inst' !! k = inst !! k) ∧
    (∀ f tgt, f ∈ init_fields t → Field.metadata f = Some (SameAsField tgt) →
              ∃ v, inst' !! Field.name f = Some v ∧ inst' !! tgt = Some v) ∧
    (∀ f v, f ∈ init_fields t → Field.metadata f = Some (ConstField v) →
            inst' !! Field.name f = Some v).
Proof.
  intros Hnd Hgen Hconst Htargets Hattr Hlen.
  destruct (generate_Ok_inv t spec Hnd Hgen)
    as (st & _ & Hinv & _ & Hfit & Hfitn & _ & _ & _ & _).
  destruct (generate_dep_resolvers t spec Hnd Hgen) as (Hmem & HndL & Hbefore).
  set (fps := FitSpecBase.fitting_params spec) in *.
  set (L := FitSpecBase.dep_resolvers spec) in *.
  assert (Hfps : fps = map Field.name
                         (filter (fun f => is_fitting f = true) (init_fields t))).
  { by rewrite Hfit, (gi_fitting _ _ _ Hinv). }
  assert (Hndf : NoDup fps).
  { rewrite Hfps. apply NoDup_map_filter. unfold init_fields.
    by apply NoDup_map_filter. }
  assert (Hlenf : length fps = length out).
  { by rewrite Hlen, Hfitn, Hfit. }
  (* kinds are told apart by the name *)
  assert (Hnotfit : ∀ f, f ∈ init_fields t → is_fitting f = false →
                         Field.name f ∉ fps).
  { intros f Hf Hno Hin. rewrite Hfps in Hin.
    apply fitting_name_inv in Hin as (x & Hx & Hname & Hxfit).
    assert (x = f) as -> by (by apply (init_names_inj t)). congruence. }
  assert (Hnottgt : ∀ f, f ∈ init_fields t → is_same_as f = false →
                         Field.name f ∉ map DependentResolver.target L).
  { intros f Hf Hno Hin.
    apply list_elem_of_In, in_map_iff in Hin as (r & Hr & Hin).
    apply list_elem_of_In, Hmem in Hin as (x & Hx & Hname & Hxm).
    assert (x = f) as -> by (apply (init_names_inj t); congruence).
    unfold is_same_as in Hno. by rewrite Hxm in Hno. }
  (* writing *)
  destruct (write_fields_Ok inst fps 0 out) as (arr & Hwrite & Hlarr & Hval & _);
    [simpl; lia|done|].
  (* reading *)
  destruct (read_fields_lookup fps arr 0 ∅) as (kw0 & Hread & Hkw0 & Hkw0');
    [done|simpl; lia|].
  assert (Hkw0in : ∀ k, k ∈ fps → kw0 !! k = inst !! k).
  { intros k Hk. apply list_elem_of_lookup in Hk as [j Hj].
    rewrite (Hkw0 j k Hj). by apply Hval. }
  assert (Hkw0out : ∀ k, k ∉ fps → kw0 !! k = None).
  { intros k Hk. by rewrite Hkw0', lookup_empty. }
  (* resolving the same-as fields *)
  destruct (resolve_dependent_Ok L kw0) as (kw & Hres & Hsub & Heq & Hdom).
  { done. }
  { intros r Hr. apply Hkw0out.
    apply Hmem in Hr as (f & Hf & <- & Hm).
    apply Hnotfit; [done|]. unfold is_fitting. by rewrite Hm. }
  { intros l1 r l2 HL.
    assert (Hr : r ∈ L) by (rewrite HL; apply elem_of_app; right; by left).
    apply Hmem in Hr as (f & Hf & Hname & Hm).
    destruct (Htargets f _ Hf Hm) as (f' & Hf' & Hname' & Hnc).
    destruct (is_same_as f') eqn:Hsame.
    - right. by apply (Hbefore l1 r l2 f').
    - left. rewrite Hkw0in; [apply Hattr|]; rewrite <- Hname', Hfps;
        (apply fitting_name_intro; [done|]);
        unfold is_fitting, is_const, is_same_as in *;
        destruct (Field.metadata f') as [[| | |]|]; done. }
  (* constructing *)
  destruct (construct_Ok t kw Hnd) as (inst' & Hcons & Hinst).
  { intros k Hk. destruct (Hdom k Hk) as [[x Hx]|Hin].
    - destruct (decide (k ∈ fps)) as [Hin|Hout].
      + rewrite Hfps in Hin. apply fitting_name_inv in Hin as (f & Hf & <- & _).
        apply list_elem_of_In, in_map, list_elem_of_In, Hf.
      + rewrite Hkw0out in Hx by done. done.
    - apply list_elem_of_In, in_map_iff in Hin as (r & <- & Hin).
      apply list_elem_of_In, Hmem in Hin as (f & Hf & <- & _).
      apply list_elem_of_In, in_map, list_elem_of_In, Hf. }
  { intros f Hf. destruct (is_fitting f) eqn:Hfitting.
    - left. eapply lookup_weaken_is_Some; [|exact Hsub].
      assert (Hin : Field.name f ∈ fps)
        by (rewrite Hfps; by apply fitting_name_intro).
      rewrite Hkw0in by done. by apply Hattr.
    - unfold is_fitting in Hfitting.
      destruct (Field.metadata f) as [[mn mx|v|tgt|]|] eqn:Hm; try done.
      + right. rewrite (Hconst f v Hf Hm). by eexists.
      + left.
        destruct (Heq (DependentResolver.mk (Field.name f) tgt)) as (x & Hx & _).
        * apply Hmem. by exists f.
        * by eexists. }
  exists arr, inst'. split_and!.
  - unfold instance_to_array. cbn [pin FitSpec.base FitSpec.clss].
    rewrite Hlen, Nat.eqb_refl. done.
  - unfold array_to_instance. cbn [pin FitSpec.base FitSpec.clss].
    rewrite Hlarr, Hlen, Nat.eqb_refl. cbn [negb].
    fold fps L. by rewrite Hread, bind_Ok_l, Hres, bind_Ok_l.
  - intros k Hk. pose proof Hk as Hk'. rewrite Hfps in Hk'.
    apply fitting_name_inv in Hk' as (f & Hf & <- & _).
    rewrite (Hinst f Hf).
    destruct (Hattr _ Hk) as [x Hx].
    assert (Hkx : kw0 !! Field.name f = Some x) by (by rewrite Hkw0in).
    by rewrite (lookup_weaken _ _ _ _ Hkx Hsub), Hx.
  - intros f tgt Hf Hm.
    destruct (Heq (DependentResolver.mk (Field.name f) tgt)) as (x & Hx & Hx').
    { apply Hmem. by exists f. }
    simpl in Hx, Hx'. exists x. split.
    + by rewrite (Hinst f Hf), Hx.
    + destruct (Htargets f _ Hf Hm) as (f' & Hf' & <- & _).
      by rewrite (Hinst f' Hf'), Hx'.
  - intros f v Hf Hm. rewrite (Hinst f Hf).
    destruct (kw !! Field.name f) as [x|] eqn:Hx; [|by apply Hconst].
    exfalso. destruct (Hdom (Field.name f)) as [[y Hy]|Hin]; [by eexists| |].
    + rewrite Hkw0out in Hy; [done|].
      apply Hnotfit; [done|]. unfold is_fitting. by rewrite Hm.
    + revert Hin. apply Hnottgt; [done|]. unfold is_same_as. by rewrite Hm.
Qed.

(** ** The default instance when the declaration order is an
    initialisation order *)

Lemma first_free_order_backward (g : DepGraph.matrix) (fuel : nat) : ∀ k m,
  (∀ i j, edgeb g i j = true → j < i) → m ≤ fuel →
  first_free_order g fuel (seq k m) = Some (seq k m).
Proof.
  induction fuel as [|fuel IH]; intros k m Hback Hm.
  - by replace m with 0 by lia.
  - destruct m as [|m]; [done|].
    cbn [seq first_free_order].
    assert (Hfree : free_in g (k :: seq (S k) m) k = true).
    { unfold free_in. apply forallb_forall. intros j Hj.
      destruct (Nat.eqb_spec j k) as [|Hne]; [done|]. simpl.
      destruct (Z.eqb_spec (DepGraph.entry g k j) 0) as [|Hz]; [done|].
      exfalso. assert (j < k).
      { apply Hback. unfold edgeb.
        by destruct (Z.eqb_spec (DepGraph.entry g k j) 0). }
      destruct Hj as [<-|Hj]; [done|]. apply in_seq in Hj. lia. }
    cbn [List.find]. rewrite Hfree.
    rewrite filter_cons, decide_False by (intros H; by apply H).
    assert (Hid : filter (fun j => j ≠ k) (seq (S k) m) = seq (S k) m).
    { assert (Hall : ∀ x, x ∈ seq (S k) m → x ≠ k)
        by (intros x Hx; apply elem_of_seq in Hx; lia).
      revert Hall. generalize (seq (S k) m). intros l.
      induction l as [|y l IHl]; intros Hall; [done|].
      rewrite filter_cons, decide_True by (apply Hall; by left).
      rewrite IHl; [done|]. intros x Hx. apply Hall. by right. }
    rewrite Hid, IH; [done|done|lia].
Qed.

Lemma resolve_defaults_Ok (l : list Field.t) : ∀ params : gmap string float,
  NoDup (map Field.name l) →
  (∀ f, f ∈ l → params !! Field.name f = None) →
  (∀ l1 f l2 tgt, l = l1 ++ f :: l2 →
     Field.metadata f = Some (SameAsField tgt) →
     is_Some (params !! tgt) ∨ tgt ∈ map Field.name l1) →
  ∃ ps, resolve_defaults (zip (map Field.name l) (map resolver_of l)) params
        = Ok ps ∧
        params ⊆ ps ∧
        (∀ k, is_Some (ps !! k) → is_Some (params !! k) ∨ k ∈ map Field.name l) ∧
        (∀ f, f ∈ l → is_Some (ps !! Field.name f)) ∧
        (∀ f tgt, f ∈ l → Field.metadata f = Some (SameAsField tgt) →
                  ∃ v, ps !! Field.name f = Some v ∧ ps !! tgt = Some v) ∧
        (∀ f v, f ∈ l → Field.metadata f = Some (ConstField v) →
                ps !! Field.name f = Some v).
Proof.
  induction l as [|f0 l IH]; intros params Hnd Hfresh Hread.
  - exists params. split_and!; try done.
    + by left.
    + intros f Hf. by apply elem_of_nil in Hf.
    + intros f tgt Hf. by apply elem_of_nil in Hf.
    + intros f v Hf. by apply elem_of_nil in Hf.
  - simpl in Hnd. apply NoDup_cons in Hnd as [Hf0 Hnd]. simpl.
    assert (Hget : ∃ v0, DefaultResolver_get (resolver_of f0) params = Ok v0 ∧
              (∀ tgt, Field.metadata f0 = Some (SameAsField tgt) →
                      params !! tgt = Some v0) ∧
              (∀ v, Field.metadata f0 = Some (ConstField v) → v0 = v)).
    { unfold resolver_of.
      destruct (Field.metadata f0) as [[mn mx|v|tgt|]|] eqn:Hm0; simpl.
      - eexists. split_and!; [done| |]; by intros ? [=].
      - eexists. split_and!; [done|by intros ? [=]|]. by intros ? [= ->].
      - destruct (Hread [] f0 l tgt eq_refl Hm0) as [[x Hx]|Hin];
          [|by apply elem_of_nil in Hin].
        unfold DependentResolver.get, dict_get. simpl. rewrite Hx.
        exists x. split_and!; [done| |by intros ? [=]]. by intros ? [= <-].
      - destruct (Field.default f0); eexists;
          (split_and!; [done| |]; by intros ? [=]).
      - destruct (Field.default f0); eexists;
          (split_and!; [done| |]; by intros ? [=]). }
    destruct Hget as (v0 & -> & Hsame0 & Hconst0). rewrite bind_Ok_l.
    assert (Hsub : params ⊆ <[Field.name f0 := v0]> params).
    { apply insert_subseteq, Hfresh. by left. }
    destruct (IH (<[Field.name f0 := v0]> params))
      as (ps & -> & Hps & Hdom & Hall & Hsame & Hconst); [done| | |].
    + intros f Hf. rewrite lookup_insert_ne; [apply Hfresh; by right|].
      intros Heq. apply Hf0. rewrite Heq.
      apply list_elem_of_In, in_map, list_elem_of_In, Hf.
    + intros l1 f l2 tgt -> Hm.
      destruct (Hread (f0 :: l1) f l2 tgt eq_refl Hm) as [[x Hx]|Hin].
      * left. exists x. by apply (lookup_weaken _ _ _ _ Hx).
      * simpl in Hin. apply elem_of_cons in Hin as [->|Hin]; [|by right].
        left. rewrite lookup_insert_eq. by eexists.
    + assert (Hps0 : ps !! Field.name f0 = Some v0)
        by apply (lookup_weaken _ _ _ _ (lookup_insert_eq _ _ _) Hps).
      exists ps. split_and!; [done|by etrans| | | |].
      * intros k Hk. destruct (Hdom k Hk) as [H|H].
        -- destruct (decide (Field.name f0 = k)) as [<-|Hne].
           ++ right. simpl. by left.
           ++ left. by rewrite lookup_insert_ne in H.
        -- right. simpl. by right.
      * intros f Hf. apply elem_of_cons in Hf as [->|Hf]; [by eexists|by apply Hall].
      * intros f tgt Hf Hm. apply elem_of_cons in Hf as [->|Hf]; [|by apply Hsame].
        exists v0. split; [done|].
        apply (lookup_weaken _ _ _ _ (Hsame0 _ Hm)). by etrans.
      * intros f v Hf Hm. apply elem_of_cons in Hf as [->|Hf]; [|by apply Hconst].
        by rewrite Hps0, (Hconst0 _ Hm).
Qed.

Lemma NoDup_of_names (l : list Field.t) : NoDup (map Field.name l) → NoDup l.
Proof.
  induction l as [|f l IH]; simpl; [constructor|].
  intros Hnd. apply NoDup_cons in Hnd as [Hf Hnd].
  apply NoDup_cons. split; [|by apply IH].
  intros Hin. apply Hf. apply list_elem_of_In, in_map, list_elem_of_In, Hin.
Qed.

(** When every same-as field names a field declared before it, the
    initialisation order is the declaration order. *)
Lemma generate_declaration_order t spec :
  NoDup (map Field.name t) → generate t = Ok spec →
  (∀ i f tgt, t !! i = Some f → Field.init f = true →
     Field.metadata f = Some (SameAsField tgt) →
     ∃ j f', j < i ∧ t !! j = Some f' ∧ Field.name f' = tgt) →
  FitSpecBase.init_order spec = map Field.name (init_fields t).
Proof.
  intros Hnd Hgen Hearlier.
  destruct (generate_Ok_inv t spec Hnd Hgen)
    as (st & _ & Hinv & _ & _ & _ & _ & _ & _ & Hord).
  pose proof (constructible_wf _ (gi_graph _ _ _ Hinv)) as Hwf.
  destruct Hord as [(_ & -> & _)|(_ & Hcl & order & Hget & -> & _)].
  { apply (gi_special _ _ _ Hinv). }
  destruct (get_init_order_ok _ Hwf Hcl)
    as (order' & idxs & Hget' & _ & _ & Hidxs & HF & _).
  assert (order' = order) as -> by congruence.
  rewrite first_free_order_backward in Hidxs; [|clear Hidxs|done].
  - injection Hidxs as <-. rewrite (wf_N _ Hwf) in HF.
    apply Forall2_lookup_seq in HF. rewrite HF.
    rewrite (gi_fields _ _ _ Hinv), (gi_special _ _ _ Hinv).
    unfold init_fields. by apply filter_names.
  - intros i j He. apply edgeb_edge in He.
    destruct (edge_depends_on _ _ _ Hwf He) as (a & b & Ha & Hb & Hdep).
    apply (gi_deps _ _ _ Hinv) in Hdep as (f & Hf & Hfn & Hfm).
    apply list_elem_of_filter in Hf as [Hinit Hf].
    apply list_elem_of_lookup in Hf as [i' Hi'].
    destruct (Hearlier i' f b Hi' Hinit Hfm) as (j' & f' & Hlt & Hj' & Hfn').
    apply (wf_key_map _ Hwf) in Ha, Hb.
    rewrite (gi_fields _ _ _ Hinv) in Ha, Hb.
    assert (Hi'' : map Field.name t !! i' = Some a).
    { change (map Field.name t) with (Field.name <$> t).
      by rewrite list_lookup_fmap, Hi', <- Hfn. }
    assert (Hj'' : map Field.name t !! j' = Some b).
    { change (map Field.name t) with (Field.name <$> t).
      by rewrite list_lookup_fmap, Hj', <- Hfn'. }
    rewrite (NoDup_lookup _ _ _ _ Hnd Ha Hi'').
    rewrite (NoDup_lookup _ _ _ _ Hnd Hb Hj''). done.
Qed.

(** The default instance, where the code supports it: when every same-as
    field names a constructor-relevant field declared before it (and const
    fields carry their value as default), [create_default_fit_instance]
    returns an instance in which every same-as field equals its target
    and every const field its value. *)
Lemma default_instance_declaration_order (t : dataclass) (spec : FitSpecBase.t) :
  NoDup (map Field.name t) →
  generate t = Ok spec →
  (∀ i f tgt, t !! i = Some f → Field.init f = true →
     Field.metadata f = Some (SameAsField tgt) →
     ∃ j f', j < i ∧ t !! j = Some f' ∧ Field.init f' = true ∧
             Field.name f' = tgt) →
  ∃ inst,
    create_default_fit_instance (pin spec t) = Ok inst ∧
    (∀ f tgt, f ∈ init_fields t → Field.metadata f = Some (SameAsField tgt) →
              ∃ v, inst !! Field.name f = Some v ∧ inst !! tgt = Some v) ∧
    (∀ f v, f ∈ init_fields t → Field.metadata f = Some (ConstField v) →
            inst !! Field.name f = Some v).
Proof.
  intros Hnd Hgen Hearlier.
  assert (Horder : FitSpecBase.init_order spec = map Field.name (init_fields t)).
  { apply generate_declaration_order; [done|done|].
    intros i f tgt Hi Hinit Hm.
    destruct (Hearlier i f tgt Hi Hinit Hm) as (j & f' & ? & ? & _ & ?).
    by exists j, f'. }
  destruct (generate_Ok_inv t spec Hnd Hgen)
    as (st & _ & Hinv & _ & _ & _ & Hres & _).
  assert (Hndi : NoDup (map Field.name (init_fields t)))
    by (by apply NoDup_map_filter).
  destruct (resolve_defaults_Ok (init_fields t) ∅ Hndi)
    as (ps & Hps & _ & Hdom & Hall & Hsame & Hconst).
  { intros f _. apply lookup_empty. }
  { intros l1 f l2 tgt Hsplit Hm. right.
    assert (Hf : f ∈ init_fields t).
    { rewrite Hsplit. apply elem_of_app. right. by left. }
    apply list_elem_of_filter in Hf as [Hinit Hf].
    apply list_elem_of_lookup in Hf as [i Hi].
    destruct (Hearlier i f tgt Hi Hinit Hm) as (j & f' & Hlt & Hj & Hinit' & <-).
    destruct (filter_order (fun f => Field.init f = true) t j i f f')
      as (p & q & Hp & Hq & Hpq); [done..|].
    fold (init_fields t) in Hp, Hq. rewrite Hsplit in Hp, Hq.
    assert (q = length l1) as ->.
    { rewrite <- Hsplit in Hq.
      apply (NoDup_lookup (init_fields t) _ _ f); [by apply NoDup_of_names|done|].
      rewrite Hsplit. by apply list_lookup_middle. }
    rewrite lookup_app_l in Hp by done.
    apply list_elem_of_In, in_map, list_elem_of_In.
    by apply list_elem_of_lookup_2 in Hp. }
  destruct (construct_Ok t ps Hnd) as (inst & Hcons & Hinst).
  { intros k Hk. destruct (Hdom k Hk) as [H|H]; [|done].
    rewrite lookup_empty in H. by destruct H. }
  { intros f Hf. left. by apply Hall. }
  exists inst. split_and!.
  - unfold create_default_fit_instance. cbn [pin FitSpec.base FitSpec.clss].
    rewrite Horder, Hres, (gi_resolvers _ _ _ Hinv), Hps. by rewrite bind_Ok_l.
  - intros f tgt Hf Hm. destruct (Hsame f tgt Hf Hm) as (v & Hv & Hv').
    exists v. split; [by rewrite (Hinst f Hf), Hv|].
    apply list_elem_of_filter in Hf as [Hinit Hf].
    apply list_elem_of_lookup in Hf as [i Hi].
    destruct (Hearlier i f tgt Hi Hinit Hm) as (j & f' & _ & Hj & Hinit' & <-).
    assert (Hf' : f' ∈ init_fields t).
    { apply list_elem_of_filter. split; [done|].
      by apply list_elem_of_lookup_2 in Hj. }
    by rewrite (Hinst f' Hf'), Hv'.
  - intros f v Hf Hm. by rewrite (Hinst f Hf), (Hconst f v Hf Hm).
Qed.

(** ** The bounds arrays when positions coincide *)

Lemma bound_items_snoc side : ∀ fs i f,
  bound_items side i (fs ++ [f])
  = bound_items side i fs ++ bound_item side (i + length fs) f.
Proof.
  induction fs as [|x fs IH]; intros i f; simpl.
  - by rewrite Nat.add_0_r, app_nil_r.
  - rewrite IH, <- app_assoc. by replace (S i + length fs) with (i + S (length fs)) by lia.
Qed.

Lemma gen_step_bounds st i f st' :
  gen_step st i f = Ok st' →
  set_lower_bounds st' = set_lower_bounds st ++ bound_item lower_side i f ∧
  set_upper_bounds st' = set_upper_bounds st ++ bound_item upper_side i f.
Proof.
  unfold gen_step, get_special_fitting_field, bound_item, lower_side, upper_side.
  destruct (Field.metadata f) as [[mn mx|v|tgt|]|].
  - intros [= <-]. simpl.
    destruct (BoundedField.min_finite mn mx), (BoundedField.max_finite mn mx);
      by rewrite ?app_nil_r.
  - intros [= <-]. simpl. by rewrite !app_nil_r.
  - destruct (DepGraph.add_dependency _ _ _) as [[b| |] g']; try done.
    intros [= <-]. simpl. by rewrite !app_nil_r.
  - intros [= <-]. simpl. by rewrite !app_nil_r.
  - intros [= <-]. simpl. by rewrite !app_nil_r.
Qed.

Lemma gen_loop_bounds rest : ∀ seen st st',
  set_lower_bounds st = bound_items lower_side 0 seen →
  set_upper_bounds st = bound_items upper_side 0 seen →
  gen_loop st (length seen) rest = Ok st' →
  set_lower_bounds st' = bound_items lower_side 0 (seen ++ rest) ∧
  set_upper_bounds st' = bound_items upper_side 0 (seen ++ rest).
Proof.
  induction rest as [|f rest IH]; intros seen st st' Hlo Hup Hloop.
  - simpl in Hloop. injection Hloop as <-. by rewrite app_nil_r.
  - simpl in Hloop. apply bind_Ok in Hloop as (st1 & Hstep & Hloop).
    destruct (gen_step_bounds _ _ _ _ Hstep) as [Hlo1 Hup1].
    replace (seen ++ f :: rest) with ((seen ++ [f]) ++ rest)
      by (by rewrite <- app_assoc).
    apply (IH (seen ++ [f]) st1).
    + by rewrite Hlo1, Hlo, bound_items_snoc.
    + by rewrite Hup1, Hup, bound_items_snoc.
    + by rewrite length_app, Nat.add_1_r.
Qed.

Lemma bound_items_elem side : ∀ fs i k v,
  (k, v) ∈ bound_items side i fs ↔
  ∃ f mn mx, i ≤ k ∧ fs !! (k - i) = Some f ∧
             Field.metadata f = Some (BoundedField mn mx) ∧
             side mn mx = Some v.
Proof.
  induction fs as [|x fs IH]; intros i k v; simpl.
  - split; [intros H; by apply elem_of_nil in H|]. by intros (f & mn & mx & _ & H & _).
  - rewrite elem_of_app, IH. unfold bound_item. split.
    + intros [H|(f & mn & mx & Hle & Hl & Hm & Hs)].
      * destruct (Field.metadata x) as [[mn mx| | |]|] eqn:Hm;
          try (by apply elem_of_nil in H).
        destruct (side mn mx) as [w|] eqn:Hs; [|by apply elem_of_nil in H].
        apply list_elem_of_singleton in H as [= -> ->].
        exists x, mn, mx. rewrite Nat.sub_diag. done.
      * exists f, mn, mx. split_and!; [lia| |done|done].
        by replace (k - i) with (S (k - S i)) by lia.
    + intros (f & mn & mx & Hle & Hl & Hm & Hs).
      destruct (decide (k = i)) as [->|Hne].
      * left. rewrite Nat.sub_diag in Hl. injection Hl as ->.
        rewrite Hm, Hs. by apply list_elem_of_singleton.
      * right. exists f, mn, mx. split_and!; [lia| |done|done].
        by replace (k - i) with (S (k - S i)) in Hl by lia.
Qed.

Lemma bound_items_NoDup side : ∀ fs i,
  NoDup (map fst (bound_items side i fs)).
Proof.
  induction fs as [|x fs IH]; intros i; simpl; [constructor|].
  rewrite map_app. apply NoDup_app. split_and!; [| |apply IH].
  - unfold bound_item. destruct (Field.metadata x) as [[mn mx| | |]|];
      try constructor.
    destruct (side mn mx); simpl; [|constructor].
    apply NoDup_singleton.
  - intros k Hk Hk'.
    apply list_elem_of_In, in_map_iff in Hk as ([k1 v1] & <- & Hk).
    apply list_elem_of_In, in_map_iff in Hk' as ([k2 v2] & Heq & Hk').
    simpl in Heq. subst k2.
    apply list_elem_of_In, bound_items_elem in Hk' as (_ & _ & _ & Hle & _).
    unfold bound_item in Hk.
    destruct (Field.metadata x) as [[mn mx| | |]|]; try done.
    destruct (side mn mx); [|done].
    destruct Hk as [[= <- _]|[]]. simpl in Hle. lia.
Qed.

Lemma fill_bounds_Ok (items : list (nat * float)) : ∀ arr,
  NoDup (map fst items) →
  (∀ k v, (k, v) ∈ items → k < length arr) →
  ∃ arr', fill_bounds items arr = Ok arr' ∧ length arr' = length arr ∧
          (∀ k v, (k, v) ∈ items → arr' !! k = Some v) ∧
          (∀ k, k ∉ map fst items → arr' !! k = arr !! k).
Proof.
  induction items as [|[k0 v0] items IH]; intros arr Hnd Hrange; simpl.
  - exists arr. split_and!; [done|done| |done].
    intros k v H. by apply elem_of_nil in H.
  - simpl in Hnd. apply NoDup_cons in Hnd as [Hk0 Hnd].
    assert (Hlt : k0 < length arr) by (apply (Hrange k0 v0); by left).
    unfold setitem. destruct (Nat.ltb_spec k0 (length arr)); [|lia].
    rewrite bind_Ok_l.
    destruct (IH (<[k0 := v0]> arr) Hnd) as (arr' & -> & Hlen & Hin & Hout).
    { intros k v Hkv. rewrite length_insert. apply (Hrange k v). by right. }
    exists arr'. rewrite length_insert in Hlen. split_and!; [done|done| |].
    + intros k v Hkv. apply elem_of_cons in Hkv as [[= -> ->]|Hkv]; [|by apply Hin].
      rewrite Hout by done. by apply list_lookup_insert_eq.
    + intros k Hk. simpl in Hk. apply not_elem_of_cons in Hk as [Hne Hk].
      rewrite Hout by done. by apply list_lookup_insert_ne.
Qed.

Lemma filter_all {B} (P : B → Prop) `{∀ x, Decision (P x)} (l : list B) :
  (∀ x, x ∈ l → P x) → filter P l = l.
Proof.
  induction l as [|x l IH]; intros Hall; [done|].
  rewrite filter_cons, decide_True by (apply Hall; by left).
  rewrite IH; [done|]. intros y Hy. apply Hall. by right.
Qed.

Lemma fitting_position (fs l1 l2 : list Field.t) f :
  fs = l1 ++ f :: l2 → (∀ x, x ∈ l1 → is_fitting x = true) →
  is_fitting f = true →
  filter (fun f => is_fitting f = true) fs !! length l1 = Some f ∧
  length l1 < length (filter (fun f => is_fitting f = true) fs).
Proof.
  intros -> Hl1 Hf.
  rewrite filter_app, filter_cons, decide_True by done.
  rewrite (filter_all _ l1) by done.
  split; [by apply list_lookup_middle|].
  rewrite length_app. simpl. lia.
Qed.

(** [_process_bounds] on the bounds collected on one side, when no other
    kind of field comes before a field with a bound on that side. *)
Lemma process_bounds_aligned side dflt (fs : list Field.t) :
  NoDup fs →
  (∀ l1 f l2 mn mx v, fs = l1 ++ f :: l2 →
     Field.metadata f = Some (BoundedField mn mx) → side mn mx = Some v →
     ∀ x, x ∈ l1 → is_fitting x = true) →
  ∃ r, _process_bounds (bound_items side 0 fs)
         (length (filter (fun f => is_fitting f = true) fs)) dflt = Ok r ∧
       (r = None ↔
        ∀ f mn mx, f ∈ fs → Field.metadata f = Some (BoundedField mn mx) →
                   side mn mx = None) ∧
       (∀ arr, r = Some arr →
               arr = map (bound_of side dflt)
                       (filter (fun f => is_fitting f = true) fs)).
Proof.
  intros Hnd Hcond.
  set (fit := filter (fun f => is_fitting f = true) fs).
  assert (Hitem : ∀ k v, (k, v) ∈ bound_items side 0 fs →
            ∃ f mn mx, fs !! k = Some f ∧
                       Field.metadata f = Some (BoundedField mn mx) ∧
                       side mn mx = Some v ∧ fit !! k = Some f ∧ k < length fit).
  { intros k v Hkv.
    apply bound_items_elem in Hkv as (f & mn & mx & _ & Hl & Hm & Hs).
    rewrite Nat.sub_0_r in Hl. exists f, mn, mx. split_and!; [done..| |].
    - pose proof (take_drop_middle fs k f Hl) as Hsplit. symmetry in Hsplit.
      destruct (fitting_position fs _ _ f Hsplit) as [Hpos _].
      + by apply (Hcond _ _ _ mn mx v Hsplit).
      + unfold is_fitting. by rewrite Hm.
      + rewrite length_take_le in Hpos; [done|].
        apply lookup_lt_Some in Hl. lia.
    - pose proof (take_drop_middle fs k f Hl) as Hsplit. symmetry in Hsplit.
      destruct (fitting_position fs _ _ f Hsplit) as [_ Hlt].
      + by apply (Hcond _ _ _ mn mx v Hsplit).
      + unfold is_fitting. by rewrite Hm.
      + rewrite length_take_le in Hlt; [done|].
        apply lookup_lt_Some in Hl. lia. }
  unfold _process_bounds.
  destruct (Nat.eqb_spec (length (bound_items side 0 fs)) 0) as [Hz|Hnz].
  - apply nil_length_inv in Hz.
    exists None. split_and!; [done| |done].
    split; [|done]. intros _ f mn mx Hf Hm.
    destruct (side mn mx) as [v|] eqn:Hs; [|done]. exfalso.
    apply list_elem_of_lookup in Hf as [k Hk].
    assert (Hin : (k, v) ∈ bound_items side 0 fs).
    { apply bound_items_elem. exists f, mn, mx. rewrite Nat.sub_0_r.
      split_and!; [lia|done..]. }
    rewrite Hz in Hin. by apply elem_of_nil in Hin.
  - destruct (fill_bounds_Ok (bound_items side 0 fs) (replicate (length fit) dflt))
      as (arr & -> & Hlen & Hin & Hout).
    { apply bound_items_NoDup. }
    { intros k v Hkv. rewrite length_replicate.
      by destruct (Hitem k v Hkv) as (_ & _ & _ & _ & _ & _ & _ & ?). }
    rewrite bind_Ok_l. exists (Some arr). split_and!; [done| |].
    + split; [done|]. intros Hnone. exfalso.
      destruct (bound_items side 0 fs) as [|[k0 v0] items] eqn:Hitems; [done|].
      destruct (Hitem k0 v0) as (f & mn & mx & Hl & Hm & Hs & _); [by left|].
      apply list_elem_of_lookup_2 in Hl. by rewrite (Hnone f mn mx Hl Hm) in Hs.
    + intros ? [= <-]. rewrite length_replicate in Hlen.
      apply list_eq. intros j.
      change (map (bound_of side dflt) fit) with (bound_of side dflt <$> fit).
      rewrite list_lookup_fmap.
      destruct (fit !! j) as [fj|] eqn:Hfj; simpl.
      2:{ apply lookup_ge_None_2. apply lookup_ge_None_1 in Hfj. lia. }
      destruct (decide (j ∈ map fst (bound_items side 0 fs))) as [Hj|Hj].
      * apply list_elem_of_In, in_map_iff in Hj as ([k v] & Hk & Hkv).
        simpl in Hk. subst k. apply list_elem_of_In in Hkv.
        rewrite (Hin j v Hkv).
        destruct (Hitem j v Hkv) as (f & mn & mx & _ & Hm & Hs & Hpos & _).
        assert (f = fj) as -> by congruence.
        unfold bound_of. by rewrite Hm, Hs.
      * rewrite (Hout j Hj), lookup_replicate_2
          by (apply lookup_lt_Some in Hfj; done).
        f_equal. unfold bound_of.
        destruct (Field.metadata fj) as [[mn mx| | |]|] eqn:Hm; try done.
        destruct (side mn mx) as [v|] eqn:Hs; [|done]. exfalso.
        assert (Hfjin : fj ∈ fs).
        { apply list_elem_of_lookup_2 in Hfj.
          apply list_elem_of_filter in Hfj. tauto. }
        apply list_elem_of_lookup in Hfjin as [k Hk].
        assert (Hkv : (k, v) ∈ bound_items side 0 fs).
        { apply bound_items_elem. exists fj, mn, mx. rewrite Nat.sub_0_r.
          split_and!; [lia|done..]. }
        destruct (Hitem k v Hkv) as (f & _ & _ & Hfk & _ & _ & Hpos & _).
        assert (f = fj) as -> by congruence.
        assert (k = j) as ->.
        { apply (NoDup_lookup fit _ _ fj); [by apply NoDup_filter|done|done]. }
        apply Hj. apply list_elem_of_In, in_map_iff. exists (j, v).
        split; [done|]. by apply list_elem_of_In.
Qed.

(** The bounds arrays, where the code supports them: when only regular
    and bounded fields come before a bounded field among the
    constructor-relevant fields, each array is absent exactly when no
    field has a finite bound on its side, and otherwise holds, at every
    position of [fitting_params], the finite bound of the field or the
    infinity of the side. *)
Lemma bounds_aligned (t : dataclass) (spec : FitSpecBase.t) :
  NoDup (map Field.name t) →
  generate t = Ok spec →
  (∀ l1 f l2 mn mx, init_fields t = l1 ++ f :: l2 →
     Field.metadata f = Some (BoundedField mn mx) →
     ∀ x, x ∈ l1 → is_fitting x = true) →
  let fit := filter (fun f => is_fitting f = true) (init_fields t) in
  FitSpecBase.fitting_params spec = map Field.name fit ∧
  (FitSpecBase.lower_bounds spec = None ↔
   ∀ f mn mx, f ∈ init_fields t →
              Field.metadata f = Some (BoundedField mn mx) →
              lower_side mn mx = None) ∧
  (∀ lb, FitSpecBase.lower_bounds spec = Some lb →
         lb = map (bound_of lower_side neg_infinity) fit) ∧
  (FitSpecBase.upper_bounds spec = None ↔
   ∀ f mn mx, f ∈ init_fields t →
              Field.metadata f = Some (BoundedField mn mx) →
              upper_side mn mx = None) ∧
  (∀ ub, FitSpecBase.upper_bounds spec = Some ub →
         ub = map (bound_of upper_side infinity) fit).
Proof.
  intros Hnd Hgen Hcond fit.
  destruct (generate_Ok_inv t spec Hnd Hgen)
    as (st & Hloop & Hinv & _ & Hfit & _ & _ & Hlo & Hup & _).
  destruct (gen_loop_bounds (init_fields t) [] (gen_state_init t) st)
    as [Hlow Hupp]; [done..|].
  simpl in Hlow, Hupp.
  rewrite Hlow, (gi_fitting _ _ _ Hinv), length_map in Hlo.
  rewrite Hupp, (gi_fitting _ _ _ Hinv), length_map in Hup.
  assert (Hndi : NoDup (init_fields t)).
  { apply NoDup_of_names. unfold init_fields. by apply NoDup_map_filter. }
  destruct (process_bounds_aligned lower_side neg_infinity (init_fields t) Hndi)
    as (r1 & Hr1 & Hnone1 & Hsome1).
  { intros l1 f l2 mn mx v Hsplit Hm _. by apply (Hcond l1 f l2 mn mx). }
  destruct (process_bounds_aligned upper_side infinity (init_fields t) Hndi)
    as (r2 & Hr2 & Hnone2 & Hsome2).
  { intros l1 f l2 mn mx v Hsplit Hm _. by apply (Hcond l1 f l2 mn mx). }
  assert (r1 = FitSpecBase.lower_bounds spec) as -> by congruence.
  assert (r2 = FitSpecBase.upper_bounds spec) as -> by congruence.
  split_and!; try done.
  by rewrite Hfit, (gi_fitting _ _ _ Hinv).
Qed.

Example bounds_aligned_example :
  let t := [Field.mk "a" true None None (Some (BoundedField 0 1));
            Field.mk "b" true None None
              (Some (BoundedField neg_infinity infinity))] in
  FitSpecBase.lower_bounds <$> generate t = Ok (Some [0%float; neg_infinity]) ∧
  FitSpecBase.upper_bounds <$> generate t = Ok (Some [1%float; infinity]).
Proof. repeat split; vm_compute; reflexivity. Qed.

(** ** Generation always returns or raises *)

Lemma get_init_order_no_diverge g : wf g → DepGraph.get_init_order g ≠ Diverge.
Proof.
  intros Hwf. destruct (DepGraph.has_closed_cycles g) eqn:Hcl.
  - unfold DepGraph.get_init_order. by rewrite Hcl.
  - destruct (get_init_order_ok g Hwf Hcl) as (order & idxs & -> & _). done.
Qed.

Lemma process_bounds_no_diverge items n dflt :
  _process_bounds items n dflt ≠ Diverge.
Proof.
  unfold _process_bounds. destruct (length items =? 0); [done|].
  generalize (replicate n dflt). induction items as [|[k v] items IH];
    intros arr; simpl; [done|].
  unfold setitem. destruct (k <? length arr); [|done].
  rewrite bind_Ok_l. specialize (IH (<[k := v]> arr)).
  by destruct (fill_bounds items (<[k := v]> arr)).
Qed.

Lemma generate_no_diverge (t : dataclass) :
  NoDup (map Field.name t) → generate t ≠ Diverge.
Proof.
  intros Hnd. unfold generate. cbv zeta.
  destruct (gen_loop (gen_state_init t) 0 (init_fields t)) as [st|e|] eqn:Hloop;
    [|done|by apply gen_loop_no_diverge in Hloop].
  assert (Hinv : gen_inv t (init_fields t) st).
  { apply (gen_loop_inv t (init_fields t) [] _ 0 st (gen_inv_init t)); [|done].
    simpl. by apply NoDup_map_filter. }
  pose proof (constructible_wf _ (gi_graph _ _ _ Hinv)) as Hwf.
  rewrite bind_Ok_l. destruct (negb _); [done|].
  pose proof (process_bounds_no_diverge (set_lower_bounds st)
                (length (fitting_fields st)) neg_infinity) as Hlo.
  pose proof (process_bounds_no_diverge (set_upper_bounds st)
                (length (fitting_fields st)) infinity) as Hup.
  assert (Hrest : ∀ io dr,
    (lower_bounds ← _process_bounds (set_lower_bounds st)
                      (length (fitting_fields st)) neg_infinity;
     upper_bounds ← _process_bounds (set_upper_bounds st)
                      (length (fitting_fields st)) infinity;
     Ok {| FitSpecBase.special_param_count := length (special_fields st);
           FitSpecBase.init_order := io;
           FitSpecBase.fitting_param_count := length (fitting_fields st);
           FitSpecBase.fitting_params := fitting_fields st;
           FitSpecBase.fitting_fields := field_descriptors st;
           FitSpecBase.default_resolvers := default_resolvers st;
           FitSpecBase.lower_bounds := lower_bounds;
           FitSpecBase.upper_bounds := upper_bounds;
           FitSpecBase.bounds :=
             (match lower_bounds with
              | None => Scalar neg_infinity
              | Some a => Dense a
              end,
              match upper_bounds with
              | None => Scalar infinity
              | Some a => Dense a
              end);
           FitSpecBase.dep_resolvers := dr |}) ≠ Diverge).
  { intros io dr.
    destruct (_process_bounds (set_lower_bounds st) _ _); [|done|done].
    rewrite bind_Ok_l.
    by destruct (_process_bounds (set_upper_bounds st) _ _). }
  destruct (0 <? DepGraph.dependency_count (depgraph st)).
  - destruct (DepGraph.has_closed_cycles (depgraph st)); [done|].
    pose proof (get_init_order_no_diverge _ Hwf) as Hget.
    destruct (DepGraph.get_init_order (depgraph st)) as [order| |];
      [|done|done].
    rewrite bind_Ok_l. destruct (negb _); [done|].
    rewrite bind_Ok_l. apply Hrest.
  - rewrite bind_Ok_l. apply Hrest.
Qed.

(** The scenario of the design document: [a] regular, [b] the same as
    [a], [c] constant 7. *)
Example scenario_regular_same_as_const :
  let t := [plain None "a"; same_as "a" None "b"; const 7 "c"] in
  FitSpecBase.fitting_params <$> generate t = Ok ["a"] ∧
  FitSpecBase.init_order <$> generate t = Ok ["a"; "b"; "c"] ∧
  (fun d : instance => (d !! "a", d !! "b", d !! "c"))
    <$> (get_fit_spec t ≫= create_default_fit_instance)
  = Ok (Some 0%float, Some 0%float, Some 7%float).
Proof. repeat split; vm_compute; reflexivity. Qed.

(** ** Where the code departs from its documentation *)

(** C1.  [generate] files a bound under the position of the field among
    all constructor-relevant fields ([i] of [enumerate(init_fields)]), not
    under its position in [fitting_params].  With a same-as field before a
    bounded field the position is past the end of the bounds array and
    generation raises [IndexError]; with a same-as field first and room in
    the array, the bounds of [a] land on the slot of [b]. *)
Theorem bounds_use_declaration_index :
  generate [plain None "a"; same_as "a" None "b";
            Field.mk "c" true None None (Some (BoundedField 0 1))]
  = Raise (IndexError 2 2) ∧
  let t := [same_as "b" None "s";
            Field.mk "a" true None None (Some (BoundedField 0 1));
            plain None "b"; plain None "c"] in
  FitSpecBase.fitting_params <$> generate t = Ok ["a"; "b"; "c"] ∧
  FitSpecBase.lower_bounds <$> generate t
  = Ok (Some [neg_infinity; 0%float; neg_infinity]) ∧
  FitSpecBase.upper_bounds <$> generate t
  = Ok (Some [infinity; 1%float; infinity]).
Proof. repeat split; vm_compute; reflexivity. Qed.

(** C2.  [default_resolvers] is in declaration order while [init_order]
    is the order of the dependency graph.  For [a = same_as('b')] declared
    before [b], the resolver that copies [b] is paired with the field [b]
    itself, and [create_default_fit_instance] raises [KeyError] on the
    still empty mapping. *)
Theorem default_resolvers_in_declaration_order :
  let t := [same_as "b" None "a"; plain None "b"] in
  FitSpecBase.init_order <$> generate t = Ok ["b"; "a"] ∧
  FitSpecBase.default_resolvers <$> generate t
  = Ok [DependentDefaultResolver (DependentResolver.mk "a" "b");
        UnsetDefaultResolver] ∧
  get_fit_spec t ≫= create_default_fit_instance = Raise (KeyError "b").
Proof. repeat split; vm_compute; reflexivity. Qed.

(** C4.  For [c = const(7)], [a = 1.0], [b = same_as('c', default=5)]
    generation succeeds and the default instance has [b] equal to [c];
    the instance with [a = 2], [b = c = 7] is written to the array [[2]],
    and [array_to_instance] on that array raises [KeyError] for ["c"]
    instead of rebuilding the instance. *)
Theorem round_trip_const_target :
  let t := [const 7 "c"; plain (Some 1%float) "a";
            same_as "c" (Some 5%float) "b"] in
  let kwargs : gmap string float := <["a" := 2%float]> (<["b" := 7%float]> ∅) in
  FitSpecBase.init_order <$> generate t = Ok ["c"; "a"; "b"] ∧
  (fun d : instance => (d !! "a", d !! "b", d !! "c"))
    <$> (get_fit_spec t ≫= create_default_fit_instance)
  = Ok (Some 1%float, Some 7%float, Some 7%float) ∧
  (fun i : instance => (i !! "a", i !! "b", i !! "c")) <$> construct t kwargs
  = Ok (Some 2%float, Some 7%float, Some 7%float) ∧
  (spec ← get_fit_spec t; inst ← construct t kwargs;
   instance_to_array spec inst [0%float]) = Ok [2%float] ∧
  (spec ← get_fit_spec t; array_to_instance spec [2%float])
  = Raise (KeyError "c").
Proof. repeat split; vm_compute; reflexivity. Qed.
